(** * ako: the middleware dispatch chain, routes and the router

    A shallow embedding of [chain] (ctx.ts), of the [Route] and [Router]
    classes of the router module and of the helpers they use from
    shared.ts. *)

From stdpp Require Import base option list sorting gmap strings pretty.
From Stdlib Require Import ZArith Lia Ascii Sorted.

Set Warnings "-register-all".

Local Open Scope string_scope.
Local Open Scope list_scope.
Local Open Scope Z_scope.

(** ** JavaScript values the code handles *)

(** The exceptions the code can raise: [new Error(msg)], [new TypeError(msg)],
    the engine's [ReferenceError] for an identifier that is not in scope and
    the [URIError] of the built-in decoder. *)
Inductive JsError : Type :=
| Error (msg : string)
| TypeError (msg : string)
| ReferenceError (ident : string)
| URIError.

(** How a promise settles. *)
Inductive Completion : Type :=
| Resolved
| Rejected (e : JsError).

(** A call that returns a value or throws. *)
Inductive Result (A : Type) : Type :=
| Returns (a : A)
| Throws (e : JsError).
Arguments Returns {A} a.
Arguments Throws {A} e.

#[global] Instance Result_ret : MRet Result := λ A a, Returns a.
#[global] Instance Result_bind : MBind Result := λ A B k r,
  match r with
  | Returns a => k a
  | Throws e => Throws e
  end.

#[global] Instance Result_fmap : FMap Result := λ A B f r,
  match r with
  | Returns a => Returns (f a)
  | Throws e => Throws e
  end.

(** ** ctx.ts: [chain] *)

Module Chain.
Section chain.
(** The per-request context object.  It is one mutable object shared by
    every middleware of the chain. *)
Variable Context : Type.

(** What the body of a middleware does once it has been called with
    [(ctx, next)]: it reads and mutates [ctx], calls [next()] and waits for
    the promise to settle (the continuation receives how it settled, so a
    body can propagate a rejection, catch it or drop it), and finally
    returns or throws.  A throw inside an [async] function or under
    [dispatch] is the rejection of the promise. *)
Inductive Body : Type :=
| Return : Body
| Throw : JsError → Body
| Update : (Context → Context) → Body → Body
| Read : (Context → Body) → Body
| AwaitNext : (Completion → Body) → Body.

(** [interface Middleware] with the optional [param] property of
    [ParamMiddlewareFactory] of the router module. *)
Record Middleware : Type := mkMiddleware {
  mw_param : option string;
  mw_call : Body
}.

(** The closure state of one [chain] call: [id], the context, and a ghost
    log [calls] of the indices [idx] at which [middlewares[idx]] was invoked
    (oldest first). *)
Record State : Type := mkState {
  id : Z;
  ctx : Context;
  calls : list Z
}.

Definition set_id (idx : Z) (s : State) : State :=
  {| id := idx; ctx := ctx s; calls := calls s |}.
Definition set_ctx (f : Context → Context) (s : State) : State :=
  {| id := id s; ctx := f (ctx s); calls := calls s |}.
Definition log_call (idx : Z) (s : State) : State :=
  {| id := id s; ctx := ctx s; calls := calls s ++ [idx] |}.

Definition DoubleInvocationError : JsError :=
  Error "next() called multiple times".

(** Runs the body of a middleware whose [next] is the given function. *)
Fixpoint run (next : State → Completion * State) (b : Body) (s : State)
    : Completion * State :=
  match b with
  | Return => (Resolved, s)
  | Throw e => (Rejected e, s)
  | Update f b' => run next b' (set_ctx f s)
  | Read k => run next (k (ctx s)) s
  | AwaitNext k => let '(o, s') := next s in run next (k o) s'
  end.

(** [dispatch(idx)] for an index past [middlewares.length]: the guard, the
    assignment, and [fn = middlewares[idx]] is [undefined], so [fn?.(...)]
    is [undefined] and the promise resolves. *)
Definition dispatch_past_end (idx : Z) (s : State) : Completion * State :=
  if bool_decide (idx ≤ id s) then (Rejected DoubleInvocationError, s)
  else (Resolved, set_id idx s).

(** [dispatch(idx)].  The list argument is [middlewares.slice(idx)]: its head
    is [middlewares[idx]] and it is empty exactly when
    [idx == middlewares.length], where [fn] is [next] itself, that is
    [dispatch(idx + 1)]. *)
Fixpoint dispatch (rest : list Middleware) (idx : Z) (s : State)
    : Completion * State :=
  if bool_decide (idx ≤ id s) then (Rejected DoubleInvocationError, s)
  else
    let s := set_id idx s in
    match rest with
    | [] => dispatch_past_end (idx + 1) s
    | fn :: rest' => run (dispatch rest' (idx + 1)) (mw_call fn) (log_call idx s)
    end.

Definition chain (c : Context) (middlewares : list Middleware) : Completion * State :=
  dispatch middlewares 0 {| id := -1; ctx := c; calls := [] |}.

(** *** Shapes of middleware bodies *)

(** The body never calls [next] and returns normally. *)
Inductive settles : Body → Prop :=
| settles_return : settles Return
| settles_update f b : settles b → settles (Update f b)
| settles_read k : (∀ c, settles (k c)) → settles (Read k).

(** The body never calls [next] and throws [e]. *)
Inductive rethrows (e : JsError) : Body → Prop :=
| rethrows_throw : rethrows e (Throw e)
| rethrows_update f b : rethrows e b → rethrows e (Update f b)
| rethrows_read k : (∀ c, rethrows e (k c)) → rethrows e (Read k).

(** [await next()] once, then the body returns normally. *)
Inductive calls_once : Body → Prop :=
| once_update f b : calls_once b → calls_once (Update f b)
| once_read k : (∀ c, calls_once (k c)) → calls_once (Read k)
| once_next k : settles (k Resolved) → calls_once (AwaitNext k).

(** The second [await next()] of a body, whose rejection is propagated. *)
Inductive calls_again : Body → Prop :=
| again_update f b : calls_again b → calls_again (Update f b)
| again_read k : (∀ c, calls_again (k c)) → calls_again (Read k)
| again_next k : (∀ e, rethrows e (k (Rejected e))) → calls_again (AwaitNext k).

(** [await next(); await next()] with rejections propagated. *)
Inductive calls_twice : Body → Prop :=
| twice_update f b : calls_twice b → calls_twice (Update f b)
| twice_read k : (∀ c, calls_twice (k c)) → calls_twice (Read k)
| twice_next k : calls_again (k Resolved) → calls_twice (AwaitNext k).

(** The indices [from, from + 1, ..., from + n - 1]. *)
Definition indices (from : Z) (n : nat) : list Z :=
  (λ k : nat, from + Z.of_nat k) <$> seq 0 n.

(** [s'] comes after [s]: the cursor has not gone back, and the calls made
    in between are at strictly increasing indices, all above the cursor of
    [s] and none above the cursor of [s']. *)
Definition extends (s s' : State) : Prop :=
  id s ≤ id s' ∧
  ∃ new, calls s' = calls s ++ new
         ∧ StronglySorted Z.lt new
         ∧ Forall (λ i, id s < i ≤ id s') new.

(** A context method that may throw, called by a body: the context it
    returns replaces the current one, its exception ends the body. *)
Definition attempt (f : Context → Result Context) (b : Body) : Body :=
  Read (λ c, match f c with
             | Returns c' => Update (λ _, c') b
             | Throws e => Throw e
             end).

End chain.

Arguments Return {Context}.
Arguments Throw {Context} _.
Arguments Update {Context} _ _.
Arguments Read {Context} _.
Arguments AwaitNext {Context} _.
Arguments mkMiddleware {Context} _ _.
Arguments mw_param {Context} _.
Arguments mw_call {Context} _.
Arguments mkState {Context} _ _ _.
Arguments id {Context} _.
Arguments ctx {Context} _.
Arguments calls {Context} _.
Arguments run {Context} _ _ _.
Arguments dispatch {Context} _ _ _.
Arguments dispatch_past_end {Context} _ _.
Arguments chain {Context} _ _.
Arguments settles {Context} _.
Arguments rethrows {Context} _ _.
Arguments calls_once {Context} _.
Arguments calls_again {Context} _.
Arguments calls_twice {Context} _.
Arguments extends {Context} _ _.
Arguments attempt {Context} _ _.
End Chain.

(** ** shared.ts *)

Module Shared.

(** [upper]: [String.prototype.toUpperCase].  Strings are byte strings
    (UTF-8) and the letters [a]..[z] are mapped: on a string of ASCII
    characters, such as the name of an HTTP method, this is what the method
    does.  The method also maps the cased letters outside ASCII, which are
    left as they are here; what is proved of the case mapping is stated for
    ASCII strings ([is_ascii]). *)
Definition upper_ascii (a : ascii) : ascii :=
  let n := N_of_ascii a in
  if ((97 <=? n) && (n <=? 122))%N then ascii_of_N (n - 32) else a.

Fixpoint upper (str : string) : string :=
  match str with
  | EmptyString => EmptyString
  | String a str' => String (upper_ascii a) (upper str')
  end.

(** A string of ASCII characters only. *)
Fixpoint is_ascii (str : string) : bool :=
  match str with
  | EmptyString => true
  | String a str' => (N_of_ascii a <? 128)%N && is_ascii str'
  end.

(** *** The engine's [decodeURIComponent]

    ECMAScript's Decode with an empty reserved set, on strings read as
    UTF-8 bytes: every [%XX] escape becomes the byte [XX]; an escape that is
    not followed by two hexadecimal digits, or escaped bytes of 0x80 and
    above that do not spell one well-formed UTF-8 sequence, raise
    [URIError]. *)
Definition hex_digit (a : ascii) : option N :=
  let n := N_of_ascii a in
  if ((48 <=? n) && (n <=? 57))%N then Some (n - 48)%N
  else if ((65 <=? n) && (n <=? 70))%N then Some (n - 55)%N
  else if ((97 <=? n) && (n <=? 102))%N then Some (n - 87)%N
  else None.

(** One unit of the input: a character taken as it is, or an escaped byte. *)
Inductive Unit : Type :=
| Plain (a : ascii)
| Escaped (b : N).

Fixpoint units (s : string) : option (list Unit) :=
  match s with
  | EmptyString => Some []
  | String "%" (String h (String l rest)) =>
      match hex_digit h, hex_digit l, units rest with
      | Some x, Some y, Some us => Some (Escaped (16 * x + y) :: us)
      | _, _, _ => None
      end
  | String "%" _ => None
  | String a rest => (Plain a ::.) <$> units rest
  end.

Definition between (lo hi b : N) : bool := ((lo <=? b) && (b <=? hi))%N.
Definition continuation (b : N) : bool := between 128 191 b.

(** Well-formed UTF-8 sequences of two, three and four bytes. *)
Definition utf8_2 (b1 b2 : N) : bool := between 194 223 b1 && continuation b2.
Definition utf8_3 (b1 b2 b3 : N) : bool :=
  ((b1 =? 224)%N && between 160 191 b2 && continuation b3)
  || (between 225 236 b1 && continuation b2 && continuation b3)
  || ((b1 =? 237)%N && between 128 159 b2 && continuation b3)
  || (between 238 239 b1 && continuation b2 && continuation b3).
Definition utf8_4 (b1 b2 b3 b4 : N) : bool :=
  (((b1 =? 240)%N && between 144 191 b2)
   || (between 241 243 b1 && continuation b2)
   || ((b1 =? 244)%N && between 128 143 b2))
  && continuation b3 && continuation b4.

Definition byte (b : N) : ascii := ascii_of_N b.

Fixpoint decode_units (us : list Unit) : option string :=
  match us with
  | [] => Some EmptyString
  | Plain a :: rest => String a <$> decode_units rest
  | Escaped b1 :: rest =>
      if (b1 <? 128)%N then String (byte b1) <$> decode_units rest
      else if between 192 223 b1 then
        match rest with
        | Escaped b2 :: rest2 =>
            if utf8_2 b1 b2
            then (λ s, String (byte b1) (String (byte b2) s)) <$> decode_units rest2
            else None
        | _ => None
        end
      else if between 224 239 b1 then
        match rest with
        | Escaped b2 :: Escaped b3 :: rest3 =>
            if utf8_3 b1 b2 b3
            then (λ s, String (byte b1) (String (byte b2) (String (byte b3) s)))
                   <$> decode_units rest3
            else None
        | _ => None
        end
      else if between 240 247 b1 then
        match rest with
        | Escaped b2 :: Escaped b3 :: Escaped b4 :: rest4 =>
            if utf8_4 b1 b2 b3 b4
            then (λ s, String (byte b1) (String (byte b2)
                         (String (byte b3) (String (byte b4) s))))
                   <$> decode_units rest4
            else None
        | _ => None
        end
      else None
  end.

Definition globalThis_decodeURIComponent (s : string) : Result string :=
  match units s ≫= decode_units with
  | Some d => Returns d
  | None => Throws URIError
  end.

(** [decodeURIComponent] of shared.ts: the built-in inside [try]/[catch],
    [null] when it throws. *)
Definition decodeURIComponent (path : string) : option string :=
  match globalThis_decodeURIComponent path with
  | Returns d => Some d
  | Throws _ => None
  end.

(** *** [quoteString] *)

Definition dquote : ascii := "034"%char.
Definition backslash : ascii := "092"%char.

(** [value.replace(QUOTE_REGEXP, '\\$1')]: a backslash before every double
    quote and every backslash. *)
Fixpoint escape_quotes (value : string) : string :=
  match value with
  | EmptyString => EmptyString
  | String a rest =>
      if bool_decide (a = dquote ∨ a = backslash)
      then String backslash (String a (escape_quotes rest))
      else String a (escape_quotes rest)
  end.

Definition quoteString (value : string) : string :=
  String dquote (escape_quotes value +:+ String dquote EmptyString).

End Shared.

(** [str.slice(0, -1)], the string without its last character. *)
Fixpoint drop_last (str : string) : string :=
  match str with
  | EmptyString => EmptyString
  | String a EmptyString => EmptyString
  | String a rest => String a (drop_last rest)
  end.

(** ** What the router module imports *)

(** The values handed to [Route.url] and stored in parameter maps: [undefined],
    strings, plain objects and arrays. *)
Inductive JsValue : Type :=
| Undefined
| Str (s : string)
| Obj (fields : gmap string JsValue)
| Arr (items : list JsValue).

(** [type Params = Record<string|number, any>]. *)
Abbreviation Params := (gmap string JsValue).

(** JavaScript truthiness of these values. *)
Definition truthy (v : JsValue) : bool :=
  match v with
  | Undefined => false
  | Str s => negb (bool_decide (s = ""))
  | Obj _ | Arr _ => true
  end.

(** [v[name]] for a value that is not [undefined]. *)
Definition get_field (v : JsValue) (name : string) : JsValue :=
  match v with
  | Obj fields => default Undefined (fields !! name)
  | _ => Undefined
  end.

(** [sep]-separated concatenation ([Array.prototype.join]). *)
Fixpoint join (sep : string) (parts : list string) : string :=
  match parts with
  | [] => ""
  | [part] => part
  | part :: parts' => part +:+ sep +:+ join sep parts'
  end.

(** [ToString]: an array is the comma-separated [ToString] of its items, with
    [undefined] items left empty. *)
Fixpoint to_string (v : JsValue) : string :=
  match v with
  | Str s => s
  | Undefined => "undefined"
  | Obj _ => "[object Object]"
  | Arr items =>
      join "," ((λ item, match item with
                         | Undefined => ""
                         | _ => to_string item
                         end) <$> items)
  end.

(** [Key.name] of path-to-regexp: [string | number]. *)
Inductive KeyName : Type :=
| NameStr (s : string)
| NameNum (n : nat).

#[global] Instance KeyName_eq_dec : EqDecision KeyName.
Proof. solve_decision. Defined.

(** The property key a name stands for in [obj[name]]. *)
Definition prop_key (k : KeyName) : string :=
  match k with
  | NameStr s => s
  | NameNum n => pretty n
  end.

Definition truthy_name (k : KeyName) : bool :=
  match k with
  | NameStr s => negb (bool_decide (s = ""))
  | NameNum n => negb (bool_decide (n = 0%nat))
  end.

Record Key : Type := mkKey {
  key_name : KeyName;
  key_prefix : string;
  key_suffix : string;
  key_pattern : string;
  key_modifier : string
}.

(** What [parse] returns: literal text or a key. *)
Inductive Token : Type :=
| TokText (s : string)
| TokKey (k : Key).

(** The path argument of [Route]: [string | RegExp]. *)
Inductive PathArg (RegExp : Type) : Type :=
| PathString (s : string)
| PathRegExp (re : RegExp).
Arguments PathString {RegExp} s.
Arguments PathRegExp {RegExp} re.

(** The path_to_regexp module and the regular expressions it builds.
    [regexp_match re str] is [str.match(re)] for the expressions the library
    returns (no [g] flag): [None] for [null], otherwise the array of the
    matched text followed by one entry per capture group, where the entry of
    a group that took no part in the match is [undefined], here [None];
    [re.test(str)] holds exactly when it is not [null].  [LibOptions] are
    [TokensToRegexpOptions & ParseOptions] and [no_options] is the empty
    object. *)
Class PathToRegexp : Type := {
  RegExp : Type;
  LibOptions : Type;
  regexp_source : RegExp → string;
  regexp_match : RegExp → string → option (list (option string));
  no_options : LibOptions;
  pathToRegexp : PathArg RegExp → LibOptions → Result (RegExp * list Key);
  compile : string → JsValue → Result (JsValue → Result string);
  parse : string → Result (list Token)
}.

(** ** The router module: [Route] *)

Module Route.
Section route.
Context `{PathToRegexp}.

(** The request context and its parameter map [ctx.params]. *)
Variable Context : Type.
Variable ctx_params : Context → Params.

(** [interface ParamMiddleware]: called with [(id, ctx, next)]. *)
Definition ParamMiddleware : Type := JsValue → Chain.Body Context.

(** An element of a middleware array at run time: a function, or a value
    for which [typeof fn != 'function'], of which the code reads only the
    [param] property. *)
Inductive Entry : Type :=
| Fn (m : Chain.Middleware Context)
| NotFn (param : option string).

Definition is_function (e : Entry) : bool :=
  match e with
  | Fn _ => true
  | NotFn _ => false
  end.

Definition entry_param (e : Entry) : option string :=
  match e with
  | Fn m => Chain.mw_param m
  | NotFn p => p
  end.

(** [interface RouteOptions]. *)
Record RouteOptions : Type := mkRouteOptions {
  opt_name : option string;
  opt_ignoreCaptures : bool;
  opt_lib : LibOptions
}.

(** The default [opts = {}]. *)
Definition empty_options : RouteOptions :=
  {| opt_name := None; opt_ignoreCaptures := false; opt_lib := no_options |}.

Record Route : Type := mkRoute {
  name : option string;
  methods : list string;
  keys : list KeyName;
  stack : list Entry;
  opts : RouteOptions;
  path : string;
  regexp : RegExp
}.

(** [if (opts.name)]: a name that is present and not the empty string. *)
Definition has_name (o : RouteOptions) : bool :=
  match opt_name o with
  | Some n => negb (bool_decide (n = ""))
  | None => false
  end.

Definition MiddlewareTypeError : JsError := Error "Middleware is not a function".

(** The [reduce] of the constructor ("Map methods"). *)
Definition map_methods (methods : list string) : list string :=
  foldl (λ (acc : list string) method,
           let method := Shared.upper method in
           if bool_decide (method ≠ "HEAD") && negb (bool_decide ("GET" ∈ methods))
           then acc ++ [method]
           else acc)
        [] methods.

(** [new Route(path, methods, middlewares, opts)].  [middlewares] is an
    array, as its type says, so [this.stack] is that array. *)
Definition new (path : PathArg RegExp) (methods : list string)
    (middlewares : list Entry) (opts : RouteOptions) : Result Route :=
  let path_text := match path with
                   | PathRegExp re => regexp_source re
                   | PathString s => s
                   end in
  let stack := middlewares in
  name ← (if has_name opts then Returns (opt_name opts)
          else if existsb (λ fn, negb (is_function fn)) stack
               then Throws MiddlewareTypeError
               else Returns None);
  let methods := map_methods methods in
  '(regexp, keys) ← pathToRegexp path (opt_lib opts);
  Returns {| name := name; methods := methods; keys := key_name <$> keys;
             stack := stack; opts := opts; path := path_text;
             regexp := regexp |}.

(** [captures[i]]: [undefined] out of range. *)
Definition capture_at (captures : list string) (i : nat) : JsValue :=
  from_option Str Undefined (captures !! i).

(** [keys[i]] used as a property key: ["undefined"] out of range. *)
Definition key_at (keys : list KeyName) (i : nat) : string :=
  from_option prop_key "undefined" (keys !! i).

(** The body of the loop of [params] at index [i]. *)
Definition params_step (keys : list KeyName) (captures : list string)
    (params : Params) (i : nat) : Params :=
  let capture := capture_at captures i in
  <[key_at keys i :=
      match Shared.decodeURIComponent (to_string capture) with
      | Some decoded => Str decoded
      | None => capture
      end]> params.

Definition params_len (keys : list KeyName) (captures : list string) : nat :=
  Nat.min (length keys) (length captures).

(** [Route.params(captures, params)]. *)
Definition params (r : Route) (captures : list string) (params : Params) : Params :=
  foldl (params_step (keys r) captures) params
        (seq 0 (params_len (keys r) captures)).

(** [Route.match(path)]. *)
Definition matches (r : Route) (path : string) : bool :=
  bool_decide (is_Some (regexp_match (regexp r) path)).

(** [Route.captures(path)]: the match array without its first entry.  The
    declared type is [string[]]; at run time an entry is [undefined] for a
    group that took no part in the match. *)
Definition captures (r : Route) (path : string) : list (option string) :=
  let res := if opt_ignoreCaptures (opts r) then None
             else drop 1 <$> regexp_match (regexp r) path in
  default [] res.

(** [path.replace(/\(\.\*\)/g, '')]. *)
Fixpoint strip_wildcards (s : string) : string :=
  match s with
  | EmptyString => EmptyString
  | String "(" (String "." (String "*" (String ")" rest))) => strip_wildcards rest
  | String a rest => String a (strip_wildcards rest)
  end.

Definition token_name (t : Token) : KeyName :=
  match t with
  | TokText s => NameStr s
  | TokKey k => key_name k
  end.

(** [for (const name of names) replace[name] = params[i++]]. *)
Fixpoint assign_names (names : list KeyName) (items : list JsValue) (i : nat)
    (replace : Params) : Params :=
  match names with
  | [] => replace
  | name :: names' =>
      assign_names names' items (S i)
                   (<[prop_key name := default Undefined (items !! i)]> replace)
  end.

(** [Route.url(params, opts)].  An omitted argument is [Undefined].  With a
    truthy [opts.query] the next statement is [replaced = parseUrl(replaced)],
    and the module neither imports nor declares [parseUrl]: reading the name
    throws before either branch on the kind of query is taken, so the
    statements after it (the assignment to [search], the read of [optis],
    the call of [formatUrl]) never run. *)
Definition url (r : Route) (params : JsValue) (opts : JsValue) : Result string :=
  let opts := match opts with Undefined => Obj ∅ | _ => opts end in
  let url := strip_wildcards (path r) in
  toPath ← compile url opts;
  tokens ← parse url;
  let names := token_name <$> tokens in
  let '(replace, opts) :=
    match params with
    | Arr items => (Obj (assign_names names items 0 ∅), opts)
    | _ => if existsb truthy_name names then (params, opts) else (Obj ∅, params)
    end in
  replaced ← toPath replace;
  if truthy opts && truthy (get_field opts "query") then
    Throws (ReferenceError "parseUrl")
  else Returns replaced.

(** [keys.indexOf(x)]. *)
Definition indexOf (keys : list KeyName) (x : KeyName) : Z :=
  match list_find (λ k, k = x) keys with
  | Some (i, _) => Z.of_nat i
  | None => -1
  end.

(** The test of the [some] callback of [Route.param]:
    [!pm.param || keys.indexOf(pm.param) > idx]. *)
Definition stops_scan (keys : list KeyName) (idx : Z) (m : Entry) : bool :=
  match entry_param m with
  | None => true
  | Some p => bool_decide (p = "") || bool_decide (indexOf keys (NameStr p) > idx)
  end.

(** The wrapper [Route.param] builds around [fn]. *)
Definition param_middleware (param : string) (fn : ParamMiddleware)
    : Chain.Middleware Context :=
  {| Chain.mw_param := Some param;
     Chain.mw_call := Chain.Read (λ c, fn (default Undefined (ctx_params c !! param))) |}.

(** [stack.splice(i, 0, middleware)]. *)
Definition splice_in (i : nat) (middleware : Entry) (stack : list Entry) : list Entry :=
  take i stack ++ middleware :: drop i stack.

(** [Route.param(param, fn)]. *)
Definition param (r : Route) (param : string) (fn : ParamMiddleware) : Route :=
  let middleware := Fn (param_middleware param fn) in
  let idx := indexOf (keys r) (NameStr param) in
  if bool_decide (idx ≠ -1) then
    match list_find (λ m, stops_scan (keys r) idx m = true) (stack r) with
    | Some (i, _) =>
        {| name := name r; methods := methods r; keys := keys r;
           stack := splice_in i middleware (stack r);
           opts := opts r; path := path r; regexp := regexp r |}
    | None => r
    end
  else r.

(** *** What the properties below speak of *)

(** What [params] stores for a raw capture: the decoded text, or the capture
    itself when the decoder throws. *)
Definition stored (capture : string) : JsValue :=
  match Shared.globalThis_decodeURIComponent capture with
  | Returns decoded => Str decoded
  | Throws _ => Str capture
  end.

(** An interceptor, as the scan of [param] sees it: an entry with a [param]
    property that is not the empty string. *)
Definition is_interceptor (e : Entry) : bool :=
  match entry_param e with
  | Some p => negb (bool_decide (p = ""))
  | None => false
  end.

(** The declaration-order index of the parameter an entry intercepts. *)
Definition rank (keys : list KeyName) (e : Entry) : Z :=
  match entry_param e with
  | Some p => indexOf keys (NameStr p)
  | None => -1
  end.

(** [a] may stand before [b]: nothing but handlers after a handler, and
    interceptors by declaration order. *)
Definition before (keys : list KeyName) (a b : Entry) : Prop :=
  (is_interceptor a = false → is_interceptor b = false)
  ∧ (is_interceptor a = true → is_interceptor b = true → rank keys a ≤ rank keys b).

Definition ordered (keys : list KeyName) (stack : list Entry) : Prop :=
  StronglySorted (before keys) stack.

End route.

Arguments Fn {Context} m.
Arguments NotFn {Context} param.
Arguments is_function {Context} e.
Arguments entry_param {Context} e.
Arguments mkRoute {_ Context}.
Arguments name {_ Context} r.
Arguments methods {_ Context} r.
Arguments keys {_ Context} r.
Arguments stack {_ Context} r.
Arguments opts {_ Context} r.
Arguments path {_ Context} r.
Arguments regexp {_ Context} r.
Arguments new {_ Context} path methods middlewares opts.
Arguments params {_ Context} r captures params.
Arguments matches {_ Context} r path.
Arguments captures {_ Context} r path.
Arguments url {_ Context} r params opts.
Arguments stops_scan {Context} keys idx m.
Arguments param_middleware {Context} ctx_params param fn.
Arguments splice_in {Context} i middleware stack.
Arguments param {_ Context} ctx_params r param fn.
Arguments is_interceptor {Context} e.
Arguments rank {Context} keys e.
Arguments before {Context} keys a b.
Arguments ordered {Context} keys stack.
End Route.

(** ** The router module: [Router] *)

Module Router.
Section router.
Context `{PathToRegexp}.
Variable Context : Type.
Variable ctx_params : Context → Params.

(** An element of [#stack]: [Middleware | Route]. *)
Inductive Layer : Type :=
| Bare (m : Route.Entry Context)
| Routed (r : Route.Route Context).

(** [interface RouterOptions]. *)
Record RouterOptions : Type := mkRouterOptions {
  opt_prefix : option string;
  opt_methods : option (list string)
}.

Record Router : Type := mkRouter {
  prefix : string;
  methods : list string;
  params : gmap string (Route.ParamMiddleware Context);
  stack : list Layer
}.

Definition METHODS : list string :=
  ["HEAD"; "OPTIONS"; "GET"; "PUT"; "PATCH"; "POST"; "DELETE"].

(** [new Router(opts)]. *)
Definition new (opts : RouterOptions) : Router :=
  {| stack := []; params := ∅;
     prefix := default "" (opt_prefix opts);
     methods := default METHODS (opt_methods opts) |}.

Definition push (layers : list Layer) (rt : Router) : Router :=
  {| prefix := prefix rt; methods := methods rt; params := params rt;
     stack := stack rt ++ layers |}.

(** [addRoute(name, methods, middlewares)]. *)
Definition addRoute (rt : Router) (name : string) (methods : list string)
    (middlewares : list (Route.Entry Context)) : Result Router :=
  route ← Route.new (PathString name) methods middlewares Route.empty_options;
  Returns (push [Routed route] rt).

Definition all (rt : Router) (name : string) (middlewares : list (Route.Entry Context)) :=
  addRoute rt name ["GET"; "PUT"; "POST"; "DELETE"] middlewares.
Definition get (rt : Router) (name : string) (middlewares : list (Route.Entry Context)) :=
  addRoute rt name ["GET"] middlewares.
Definition put (rt : Router) (name : string) (middlewares : list (Route.Entry Context)) :=
  addRoute rt name ["PUT"] middlewares.
Definition post (rt : Router) (name : string) (middlewares : list (Route.Entry Context)) :=
  addRoute rt name ["POST"] middlewares.
Definition delete (rt : Router) (name : string) (middlewares : list (Route.Entry Context)) :=
  addRoute rt name ["DELETE"] middlewares.

(** [use(...middlewares)]. *)
Definition use (rt : Router) (middlewares : list (Route.Entry Context)) : Router :=
  push (Bare <$> middlewares) rt.

(** The test of the [find] callback of [route]:
    [r instanceof Route && r.name === name]. *)
Definition is_named (name : string) (l : Layer) : bool :=
  match l with
  | Routed r => bool_decide (Route.name r = Some name)
  | Bare _ => false
  end.

(** [route(name)]: the route found, or [None] when [find] returns
    [undefined]. *)
Definition route (rt : Router) (name : string) : option (Route.Route Context) :=
  match list_find (λ l, is_named name l = true) (stack rt) with
  | Some (_, Routed r) => Some r
  | _ => None
  end.

(** [url(name, params, query)].  The result [None] is [null].  In the call
    [route.url(params, opts)] no [opts] is in scope (the parameter is named
    [query]); the arguments are evaluated before the call is made. *)
Definition url (rt : Router) (name : string) (params : JsValue) (query : JsValue)
    : Result (option string) :=
  match route rt name with
  | Some route => Throws (ReferenceError "opts")
  | None => Returns None
  end.

(** [param(param, middleware)]. *)
Definition param (rt : Router) (param : string)
    (middleware : Route.ParamMiddleware Context) : Router :=
  {| prefix := prefix rt; methods := methods rt;
     params := <[param := middleware]> (params rt);
     stack := (λ l, match l with
                    | Routed route => Routed (Route.param ctx_params route param middleware)
                    | Bare m => Bare m
                    end) <$> stack rt |}.

(** [set prefix(value)]. *)
Fixpoint ends_with_slash (value : string) : bool :=
  match value with
  | EmptyString => false
  | String a EmptyString => bool_decide (a = "/"%char)
  | String _ rest => ends_with_slash rest
  end.

Definition set_prefix (rt : Router) (value : string) : Router :=
  {| prefix := if ends_with_slash value then drop_last value else value;
     methods := methods rt; params := params rt; stack := stack rt |}.

(** [ctx.redirect(url)] and [ctx.status = status] of the context; both may
    throw. *)
Variable ctx_redirect : string → Context → Result Context.
Variable ctx_set_status : Z → Context → Result Context.

(** [src[0] == '/']. *)
Definition starts_with_slash (s : string) : bool :=
  match s with
  | String a _ => bool_decide (a = "/"%char)
  | EmptyString => false
  end.

(** The handler [redirect] registers:
    [ctx => { ctx.redirect(dstUrl); ctx.status = status; }]. *)
Definition redirect_handler (dstUrl : string) (status : Z) : Chain.Middleware Context :=
  {| Chain.mw_param := None;
     Chain.mw_call := Chain.attempt (ctx_redirect dstUrl)
                        (Chain.attempt (ctx_set_status status) Chain.Return) |}.

(** [redirect(src, dst, status = 301)]; an omitted status is [None]. *)
Definition redirect (rt : Router) (src dst : string) (status : option Z)
    : Result Router :=
  let status := default 301 status in
  srcUrl ← (if starts_with_slash src then Returns (Some src)
            else url rt src Undefined Undefined);
  dstUrl ← (if starts_with_slash dst then Returns (Some dst)
            else url rt dst Undefined Undefined);
  match srcUrl, dstUrl with
  | Some srcUrl, Some dstUrl =>
      all rt srcUrl [Route.Fn (redirect_handler dstUrl status)]
  | _, _ =>
      let name := match srcUrl with
                  | Some s => if bool_decide (s = "") then "source" else "destination"
                  | None => "source"
                  end in
      Throws (TypeError ("Redirection " +:+ name +:+ " does not exist."))
  end.

(** What the specification asks of [url]: delegate to the named route's
    [url] with the given parameters and query. *)
Definition url_spec (rt : Router) (name : string) (params : JsValue) (query : JsValue)
    : Result (option string) :=
  match route rt name with
  | Some route => Some <$> Route.url route params query
  | None => Returns None
  end.

(** The routers that the public methods build: the constructor, [use], the
    route methods ([all], [get], [put], [post], [delete] and, through [all],
    [redirect] add a route by [addRoute]), [param] and the prefix setter. *)
Inductive built : Router → Prop :=
| built_new opts : built (new opts)
| built_use rt middlewares : built rt → built (use rt middlewares)
| built_addRoute rt name methods middlewares rt' :
    built rt → addRoute rt name methods middlewares = Returns rt' →
    built rt'
| built_param rt p fn : built rt → built (param rt p fn)
| built_set_prefix rt value : built rt → built (set_prefix rt value).

End router.

Arguments Bare {_ Context} m.
Arguments Routed {_ Context} r.
Arguments mkRouter {_ Context}.
Arguments prefix {_ Context} r.
Arguments methods {_ Context} r.
Arguments params {_ Context} r.
Arguments stack {_ Context} r.
Arguments new {_ Context} opts.
Arguments push {_ Context} layers rt.
Arguments addRoute {_ Context} rt name methods middlewares.
Arguments all {_ Context} rt name middlewares.
Arguments get {_ Context} rt name middlewares.
Arguments put {_ Context} rt name middlewares.
Arguments post {_ Context} rt name middlewares.
Arguments delete {_ Context} rt name middlewares.
Arguments use {_ Context} rt middlewares.
Arguments is_named {_ Context} name l.
Arguments route {_ Context} rt name.
Arguments url {_ Context} rt name params query.
Arguments param {_ Context} ctx_params rt param middleware.
Arguments url_spec {_ Context} rt name params query.
Arguments built {_ Context} ctx_params _.
Arguments set_prefix {_ Context} rt value.
Arguments redirect_handler {Context} ctx_redirect ctx_set_status dstUrl status.
Arguments redirect {_ Context} ctx_redirect ctx_set_status rt src dst status.
End Router.

(** ** app.ts: [App] *)

Module App.
Section app.
Variable Context : Type.

(** [type Body] of ctx.ts, as the request loop tells its values apart: a
    string, a [Uint8Array], a reader ([isReader]), [null] or [undefined], and
    any other object or array. *)
Inductive Body : Type :=
| BodyString (s : string)
| BodyBytes (bytes : list N)
| BodyReader
| BodyNullish
| BodyObject (v : JsValue).

(** [ctx.body], [ctx.type] and [JSON.stringify]. *)
Variable ctx_body : Context → Body.
Variable ctx_type : Context → string.
Variable JSON_stringify : JsValue → string.

(** The part of [class App] the request loop uses. *)
Record App : Type := mkApp {
  middlewares : list (Chain.Middleware Context)
}.

(** [use(middleware)]. *)
Definition use (app : App) (middleware : Chain.Middleware Context) : App :=
  {| middlewares := middlewares app ++ [middleware] |}.

(** How the loop of [startListen] leaves one request: [req.respond] called
    with this body ([None] is [undefined]) and the context's headers and
    status, or [onError] called with the exception. *)
Inductive Outcome : Type :=
| Responded (data : option Body) (c : Context)
| Failed (ex : JsError).

(** The body of the loop of [startListen] for the context of one request. *)
Definition handle (app : App) (c : Context) : Outcome :=
  match Chain.chain c (middlewares app) with
  | (Rejected ex, _) => Failed ex
  | (Resolved, s) =>
      let c := Chain.ctx s in
      match ctx_body c with
      | BodyString _ | BodyBytes _ | BodyReader => Responded (Some (ctx_body c)) c
      | BodyNullish => Responded None c
      | BodyObject v =>
          if bool_decide (ctx_type c = "application/json")
          then Responded (Some (BodyString (JSON_stringify v))) c
          else Failed (TypeError "Body invalid!")
      end
  end.

End app.

Arguments mkApp {Context} _.
Arguments middlewares {Context} _.
Arguments use {Context} app middleware.
Arguments Responded {Context} data c.
Arguments Failed {Context} ex.
Arguments handle {Context} ctx_body ctx_type JSON_stringify app c.
End App.

(** ** Middleware of the usual shapes *)

Module Handlers.
Section handlers.
Variable Context : Type.

Definition handler (b : Chain.Body Context) : Chain.Middleware Context :=
  {| Chain.mw_param := None; Chain.mw_call := b |}.

(** [async (ctx, next) => { pre(ctx); await next(); post(ctx); }]. *)
Definition around (layer : (Context → Context) * (Context → Context))
    : Chain.Middleware Context :=
  handler (Chain.Update layer.1 (Chain.AwaitNext (λ o,
    match o with
    | Resolved => Chain.Update layer.2 Chain.Return
    | Rejected e => Chain.Throw e
    end))).

(** [(ctx) => { f(ctx); }]: answers and does not call [next]. *)
Definition final (f : Context → Context) : Chain.Middleware Context :=
  handler (Chain.Update f Chain.Return).

(** [(ctx) => { f(ctx); throw e; }]. *)
Definition failing (f : Context → Context) (e : JsError) : Chain.Middleware Context :=
  handler (Chain.Update f (Chain.Throw e)).

(** The code before [await next()] of every layer, outermost first. *)
Definition enter (layers : list ((Context → Context) * (Context → Context)))
    (c : Context) : Context :=
  foldl (λ c layer, layer.1 c) c layers.

(** The code after [await next()] of every layer, innermost first. *)
Definition leave (layers : list ((Context → Context) * (Context → Context)))
    (c : Context) : Context :=
  foldr (λ layer c, layer.2 c) c layers.

End handlers.

Arguments handler {Context} b.
Arguments around {Context} layer.
Arguments final {Context} f.
Arguments failing {Context} f e.
Arguments enter {Context} layers c.
Arguments leave {Context} layers c.
End Handlers.

(** ** Instances used by the examples *)

(** A small instance of the path_to_regexp interface, on which the
    definitions above can be run: patterns whose segments are literal text
    or [:name], matched segment by segment.  It is not the library: it knows
    no optional or repeated parameter and no custom pattern, it compares
    case-sensitively and it takes no trailing delimiter. *)
Module Segments.

Inductive Segment : Type :=
| Lit (s : string)
| Par (name : string).

Fixpoint split_on (sep : ascii) (s : string) : list string :=
  match s with
  | EmptyString => [EmptyString]
  | String a rest =>
      if decide (a = sep) then EmptyString :: split_on sep rest
      else match split_on sep rest with
           | seg :: segs => String a seg :: segs
           | [] => [String a EmptyString]
           end
  end.

Definition segment (s : string) : Segment :=
  match s with
  | String ":" name => Par name
  | _ => Lit s
  end.

Definition well_named (seg : Segment) : bool :=
  match seg with
  | Par name => negb (bool_decide (name = ""))
  | Lit _ => true
  end.

Definition pattern (path : string) : Result (list Segment) :=
  let segs := segment <$> split_on "/" path in
  if forallb well_named segs then Returns segs
  else Throws (TypeError "Missing parameter name").

Definition segment_key (name : string) : Key :=
  {| key_name := NameStr name; key_prefix := "/"; key_suffix := "";
     key_pattern := "[^\/#\?]+?"; key_modifier := "" |}.

Fixpoint pattern_keys (pat : list Segment) : list Key :=
  match pat with
  | [] => []
  | Par name :: pat' => segment_key name :: pattern_keys pat'
  | Lit _ :: pat' => pattern_keys pat'
  end.

Fixpoint match_segments (pat : list Segment) (segs : list string)
    : option (list string) :=
  match pat, segs with
  | [], [] => Some []
  | Lit l :: pat', s :: segs' =>
      if decide (l = s) then match_segments pat' segs' else None
  | Par _ :: pat', s :: segs' =>
      if decide (s = "") then None else (s ::.) <$> match_segments pat' segs'
  | _, _ => None
  end.

Definition source_of (seg : Segment) : string :=
  match seg with
  | Lit s => s
  | Par name => String ":" name
  end.

Fixpoint fill (pat : list Segment) (replace : JsValue) : Result (list string) :=
  match pat with
  | [] => Returns []
  | Lit s :: pat' => (s ::.) <$> fill pat' replace
  | Par name :: pat' =>
      match get_field replace name with
      | Str v => (v ::.) <$> fill pat' replace
      | _ => Throws (TypeError "Expected a parameter to be a string")
      end
  end.

Definition token (seg : Segment) : Token :=
  match seg with
  | Lit s => TokText ("/" +:+ s)
  | Par name => TokKey (segment_key name)
  end.

#[global] Instance lib : PathToRegexp := {|
  RegExp := list Segment;
  LibOptions := unit;
  regexp_source := λ re, join "/" (source_of <$> re);
  regexp_match := λ re str,
    (λ caps, Some str :: (Some <$> caps)) <$> match_segments re (split_on "/" str);
  no_options := tt;
  pathToRegexp := λ path _,
    match path with
    | PathString s => pat ← pattern s; Returns (pat, pattern_keys pat)
    | PathRegExp re => Returns (re, pattern_keys re)
    end;
  compile := λ url _, pat ← pattern url;
               Returns (λ replace, join "/" <$> fill pat replace);
  parse := λ url, pat ← pattern url; Returns (token <$> drop 1 pat)
|}.

End Segments.

(** Contexts, handlers and routes of the examples. *)
Module Examples.

(** A context with the parameter map and a log handlers write to. *)
Record Ctx : Type := mkCtx {
  ctx_params : Params;
  ctx_log : list string
}.

Definition empty_ctx : Ctx := {| ctx_params := ∅; ctx_log := [] |}.

Definition say (msg : string) (c : Ctx) : Ctx :=
  {| ctx_params := ctx_params c; ctx_log := ctx_log c ++ [msg] |}.

Definition handler (b : Chain.Body Ctx) : Chain.Middleware Ctx :=
  {| Chain.mw_param := None; Chain.mw_call := b |}.

(** [async (ctx, next) => { await next(); await next(); }]. *)
Definition twice : Chain.Middleware Ctx :=
  handler (Chain.AwaitNext (λ o,
    match o with
    | Resolved => Chain.AwaitNext (λ o',
        match o' with
        | Resolved => Chain.Return
        | Rejected e => Chain.Throw e
        end)
    | Rejected e => Chain.Throw e
    end)).

(** [async (ctx, next) => { try { await next(); await next(); } catch {} }]. *)
Definition twice_caught : Chain.Middleware Ctx :=
  handler (Chain.AwaitNext (λ o,
    match o with
    | Resolved => Chain.AwaitNext (λ _, Chain.Return)
    | Rejected _ => Chain.Return
    end)).

(** [async (ctx, next) => { log(msg); await next(); }]. *)
Definition pass (msg : string) : Chain.Middleware Ctx :=
  handler (Chain.Update (say msg) (Chain.AwaitNext (λ o,
    match o with
    | Resolved => Chain.Return
    | Rejected e => Chain.Throw e
    end))).

(** [(ctx) => { log(msg); }]: answers without calling [next]. *)
Definition answer (msg : string) : Chain.Middleware Ctx :=
  handler (Chain.Update (say msg) Chain.Return).

(** A parameter interceptor that logs the parameter and goes on. *)
Definition intercept (tag : string) : Route.ParamMiddleware Ctx :=
  λ id, Chain.Update (say (tag +:+ "=" +:+ to_string id))
          (Chain.AwaitNext (λ o,
             match o with
             | Resolved => Chain.Return
             | Rejected e => Chain.Throw e
             end)).

End Examples.

(** * Properties *)

(** ** The dispatch chain *)

Module ChainFacts.
Import Chain.

Section facts.
Variable Context : Type.
Implicit Types (s : State Context) (b : Body Context)
  (next : State Context → Completion * State Context)
  (rest : list (Middleware Context)).

(** The guard of [dispatch]. *)
Lemma dispatch_guard rest idx s :
  idx ≤ id s →
  dispatch rest idx s = (Rejected DoubleInvocationError, s).
Proof.
  intros Hle. destruct rest; simpl; rewrite bool_decide_eq_true_2; done.
Qed.

Lemma dispatch_nil idx s :
  id s < idx →
  dispatch [] idx s = (Resolved, set_id Context (idx + 1) (set_id Context idx s)).
Proof.
  intros Hlt. simpl. rewrite bool_decide_eq_false_2 by lia.
  unfold dispatch_past_end. simpl. rewrite bool_decide_eq_false_2 by lia. done.
Qed.

Lemma dispatch_cons fn rest idx s :
  id s < idx →
  dispatch (fn :: rest) idx s
  = run (dispatch rest (idx + 1)) (mw_call fn)
        (log_call Context idx (set_id Context idx s)).
Proof. intros Hlt. simpl. rewrite bool_decide_eq_false_2 by lia. done. Qed.

Lemma extends_refl s : extends s s.
Proof.
  split; [lia|]. exists []. rewrite app_nil_r. repeat split; constructor.
Qed.

Lemma StronglySorted_app_lt (l1 l2 : list Z) (m : Z) :
  StronglySorted Z.lt l1 → StronglySorted Z.lt l2 →
  Forall (λ i, i ≤ m) l1 → Forall (λ i, m < i) l2 →
  StronglySorted Z.lt (l1 ++ l2).
Proof.
  intros H1 H2 Hl1 Hl2. induction H1 as [|a l1 Hs IH Ha]; simpl; [done|].
  inversion Hl1; subst. constructor; [by apply IH|].
  apply Forall_app. split; [done|].
  eapply Forall_impl; [exact Hl2|]. simpl. intros; lia.
Qed.

Lemma extends_trans s1 s2 s3 : extends s1 s2 → extends s2 s3 → extends s1 s3.
Proof.
  intros (Hid12 & n12 & Hc12 & Hs12 & Hb12) (Hid23 & n23 & Hc23 & Hs23 & Hb23).
  split; [lia|]. exists (n12 ++ n23). split; [|split].
  - by rewrite Hc23, Hc12, app_assoc.
  - apply (StronglySorted_app_lt _ _ (id s2)); [done|done| |].
    + eapply Forall_impl; [exact Hb12|]. simpl. intros; lia.
    + eapply Forall_impl; [exact Hb23|]. simpl. intros; lia.
  - apply Forall_app. split.
    + eapply Forall_impl; [exact Hb12|]. simpl. intros; lia.
    + eapply Forall_impl; [exact Hb23|]. simpl. intros; lia.
Qed.

Lemma extends_set_ctx f s : extends s (set_ctx Context f s).
Proof.
  split; [simpl; lia|]. exists []. simpl. rewrite app_nil_r.
  repeat split; constructor.
Qed.

Lemma run_extends next b :
  (∀ s, extends s (next s).2) → ∀ s, extends s (run next b s).2.
Proof.
  intros Hnext. induction b as [|e|f b IH|k IH|k IH]; intros s; simpl.
  - apply extends_refl.
  - apply extends_refl.
  - eapply extends_trans; [apply extends_set_ctx|apply IH].
  - apply IH.
  - specialize (Hnext s). destruct (next s) as [o s']. simpl in Hnext.
    eapply extends_trans; [exact Hnext|apply IH].
Qed.

Lemma dispatch_extends rest : ∀ idx s, extends s (dispatch rest idx s).2.
Proof.
  induction rest as [|fn rest IH]; intros idx s.
  - destruct (decide (idx ≤ id s)) as [Hle|Hgt].
    + rewrite dispatch_guard by done. apply extends_refl.
    + rewrite dispatch_nil by lia. split; [simpl; lia|].
      exists []. simpl. rewrite app_nil_r. repeat split; constructor.
  - destruct (decide (idx ≤ id s)) as [Hle|Hgt].
    + rewrite dispatch_guard by done. apply extends_refl.
    + rewrite dispatch_cons by lia.
      eapply extends_trans; [|apply run_extends, IH].
      split; [simpl; lia|]. exists [idx]. simpl. repeat split.
      * repeat constructor.
      * repeat constructor; lia.
Qed.

Lemma StronglySorted_lt_NoDup (l : list Z) : StronglySorted Z.lt l → NoDup l.
Proof.
  induction 1 as [|a l Hs IH Ha]; constructor; [|done].
  intros Hin. rewrite Forall_forall in Ha. specialize (Ha a Hin). lia.
Qed.

(** No middleware of the list is invoked twice by one [chain] call. *)
Lemma chain_calls_NoDup (c : Context) rest : NoDup (calls (chain c rest).2).
Proof.
  unfold chain.
  destruct (dispatch_extends rest 0 {| id := -1; ctx := c; calls := [] |})
    as (_ & new & Hcalls & Hsorted & _).
  rewrite Hcalls. simpl. by apply StronglySorted_lt_NoDup.
Qed.

(** *** Bodies of a known shape *)

Lemma run_settles next b s :
  settles b →
  ∃ s', run next b s = (Resolved, s') ∧ id s' = id s ∧ calls s' = calls s.
Proof.
  intros Hb. revert s. induction Hb as [|f b Hb IH|k Hk IH]; intros s; simpl.
  - eauto.
  - destruct (IH (set_ctx Context f s)) as (s' & -> & ? & ?). eauto.
  - apply IH.
Qed.

Lemma run_rethrows next e b s :
  rethrows e b →
  ∃ s', run next b s = (Rejected e, s') ∧ id s' = id s ∧ calls s' = calls s.
Proof.
  intros Hb. revert s. induction Hb as [|f b Hb IH|k Hk IH]; intros s; simpl.
  - eauto.
  - destruct (IH (set_ctx Context f s)) as (s' & -> & ? & ?). eauto.
  - apply IH.
Qed.

(** A body that awaits [next] once, run with a [next] that resolves. *)
Lemma run_calls_once next b (i i' : Z) (cs cs' : list Z) :
  calls_once b →
  (∀ s1, id s1 = i → calls s1 = cs →
         ∃ s2, next s1 = (Resolved, s2) ∧ id s2 = i' ∧ calls s2 = cs') →
  ∀ s, id s = i → calls s = cs →
       ∃ s', run next b s = (Resolved, s') ∧ id s' = i' ∧ calls s' = cs'.
Proof.
  intros Hb Hnext. induction Hb as [f b Hb IH|k Hk IH|k Hk]; intros s Hi Hc; simpl.
  - apply IH; done.
  - apply IH; done.
  - destruct (Hnext s Hi Hc) as (s2 & -> & Hi2 & Hc2).
    destruct (run_settles next _ s2 Hk) as (s' & -> & ? & ?).
    exists s'. split; [done|]. split; congruence.
Qed.

(** The second [await next()], run with a [next] that is rejected. *)
Lemma run_calls_again next e b (i : Z) (cs : list Z) :
  calls_again b →
  (∀ s1, id s1 = i → calls s1 = cs → next s1 = (Rejected e, s1)) →
  ∀ s, id s = i → calls s = cs →
       ∃ s', run next b s = (Rejected e, s') ∧ id s' = i ∧ calls s' = cs.
Proof.
  intros Hb Hnext. induction Hb as [f b Hb IH|k Hk IH|k Hk]; intros s Hi Hc; simpl.
  - apply IH; done.
  - apply IH; done.
  - rewrite (Hnext s Hi Hc).
    destruct (run_rethrows next e _ s (Hk e)) as (s' & -> & ? & ?).
    exists s'. split; [done|]. split; congruence.
Qed.

Lemma run_calls_twice next e b (i i' : Z) (cs cs' : list Z) :
  calls_twice b →
  (∀ s1, id s1 = i → calls s1 = cs →
         ∃ s2, next s1 = (Resolved, s2) ∧ id s2 = i' ∧ calls s2 = cs') →
  (∀ s2, id s2 = i' → calls s2 = cs' → next s2 = (Rejected e, s2)) →
  ∀ s, id s = i → calls s = cs →
       ∃ s', run next b s = (Rejected e, s') ∧ id s' = i' ∧ calls s' = cs'.
Proof.
  intros Hb Hfirst Hsecond.
  induction Hb as [f b Hb IH|k Hk IH|k Hk]; intros s Hi Hc; simpl.
  - apply IH; done.
  - apply IH; done.
  - destruct (Hfirst s Hi Hc) as (s2 & -> & Hi2 & Hc2).
    apply (run_calls_again next e _ i' cs'); done.
Qed.

Lemma indices_cons (from : Z) (n : nat) :
  indices from (S n) = from :: indices (from + 1) n.
Proof.
  unfold indices. simpl. f_equal; [lia|].
  rewrite <- fmap_S_seq, <- list_fmap_compose.
  apply list_fmap_ext. intros _ k _. simpl. lia.
Qed.

(** A list of middlewares that each await [next] once runs through: every
    one is invoked, in order, and the cursor ends past the list. *)
Lemma dispatch_calls_once rest :
  Forall (λ fn, calls_once (mw_call fn)) rest →
  ∀ idx s, id s < idx →
    ∃ s', dispatch rest idx s = (Resolved, s')
          ∧ id s' = idx + Z.of_nat (length rest) + 1
          ∧ calls s' = calls s ++ indices idx (length rest).
Proof.
  induction 1 as [|fn rest Hfn Hrest IH]; intros idx s Hlt.
  - rewrite dispatch_nil by done. eexists. split; [done|]. simpl.
    split; [lia|]. by rewrite app_nil_r.
  - rewrite dispatch_cons by done.
    apply (run_calls_once _ _ idx _ (calls s ++ [idx])); [done| |done|done].
    intros s1 Hi Hc. destruct (IH (idx + 1) s1) as (s2 & -> & Hi2 & Hc2); [lia|].
    exists s2. split; [done|]. split.
    + rewrite Hi2. simpl length. lia.
    + simpl length. rewrite Hc2, Hc, indices_cons, <- app_assoc. done.
Qed.

Lemma dispatch_reaches rest idx s :
  id s < idx → idx ≤ id (dispatch rest idx s).2.
Proof.
  intros Hlt. destruct rest as [|fn rest].
  - rewrite dispatch_nil by done. simpl. lia.
  - rewrite dispatch_cons by done.
    destruct (run_extends (dispatch rest (idx + 1)) (mw_call fn)
                (dispatch_extends rest (idx + 1))
                (log_call Context idx (set_id Context idx s))) as [Hid _].
    simpl in Hid. lia.
Qed.

(** C1 (amended).  A continuation call at index [idx] is accepted only when
    [idx] is above the highest index reached so far, which is then [idx] at
    least; otherwise that call is rejected with the double-invocation error
    and nothing else changes.  No entry of any list is invoked twice.  When
    entry 0 awaits its continuation twice and propagates a rejection, and
    every later entry awaits its continuation once and returns, the chain is
    rejected with the double-invocation error and every entry has been
    invoked exactly once, in order. *)
Theorem chain_next_called_twice (c : Context) fn rest :
  calls_twice (mw_call fn) →
  Forall (λ m, calls_once (mw_call m)) rest →
  (∀ others idx s,
      (idx ≤ id s → dispatch others idx s = (Rejected DoubleInvocationError, s))
      ∧ (id s < idx → idx ≤ id (dispatch others idx s).2))
  ∧ (∀ middlewares, NoDup (calls (chain c middlewares).2))
  ∧ ∃ s, chain c (fn :: rest) = (Rejected DoubleInvocationError, s)
         ∧ calls s = indices 0 (length (fn :: rest)).
Proof.
  intros Htwice Honce. split; [|split].
  - intros others idx s. split; [apply dispatch_guard|apply dispatch_reaches].
  - intros middlewares. apply chain_calls_NoDup.
  - unfold chain. rewrite dispatch_cons by (simpl; lia).
    destruct (run_calls_twice (dispatch rest (0 + 1)) DoubleInvocationError
                (mw_call fn) 0 (1 + Z.of_nat (length rest) + 1)
                [0] ([0] ++ indices 1 (length rest)) Htwice)
      with (s := log_call Context 0 (set_id Context 0 (mkState (-1) c [])))
      as (s' & Hrun & _ & Hcalls); try done.
    + intros s1 Hi Hc.
      destruct (dispatch_calls_once rest Honce (0 + 1) s1) as (s2 & ? & ? & Hc2);
        [lia|].
      exists s2. split; [done|]. split; [lia|]. by rewrite Hc2, Hc.
    + intros s2 Hi Hc. apply dispatch_guard. lia.
    + exists s'. split; [done|]. simpl length. by rewrite indices_cons.
Qed.

End facts.

(** The hypotheses of C1 hold of [twice] followed by two handlers that pass
    control on. *)
Lemma chain_next_called_twice_witness :
  ∃ s, chain Examples.empty_ctx [Examples.twice; Examples.pass "a"; Examples.pass "b"]
       = (Rejected DoubleInvocationError, s)
       ∧ calls s = [0; 1; 2].
Proof.
  apply (chain_next_called_twice Examples.Ctx Examples.empty_ctx Examples.twice
           [Examples.pass "a"; Examples.pass "b"]).
  - simpl. apply twice_next, again_next. intros e. apply rethrows_throw.
  - repeat constructor.
Defined.

(** C1 as stated fails: entry 0 awaits [next] twice, entry 1 answers without
    calling [next]; the chain is rejected with the double-invocation error
    and entry 2 has never run. *)
Lemma entries_after_first_need_not_run :
  ¬ ((chain Examples.empty_ctx
        [Examples.twice; Examples.answer "a"; Examples.pass "b"]).1
     = Rejected DoubleInvocationError
     ∧ ∀ i, 0 < i < 3 →
            length (filter (λ j, j = i)
                      (calls (chain Examples.empty_ctx
                                [Examples.twice; Examples.answer "a";
                                 Examples.pass "b"]).2)) = 1%nat).
Proof.
  intros [_ Hall]. specialize (Hall 2 ltac:(lia)).
  vm_compute in Hall. discriminate Hall.
Qed.

(** What happens there. *)
Example chain_answer_stops :
  chain Examples.empty_ctx [Examples.twice; Examples.answer "a"; Examples.pass "b"]
  = (Rejected DoubleInvocationError,
     {| id := 1; ctx := Examples.say "a" Examples.empty_ctx; calls := [0; 1] |}).
Proof. reflexivity. Qed.

(** A middleware that catches the rejection of its second call lets the
    chain resolve. *)
Example chain_rejection_caught :
  (chain Examples.empty_ctx [Examples.twice_caught; Examples.pass "a"]).1 = Resolved.
Proof. reflexivity. Qed.

End ChainFacts.


(** ** Routes *)

Module RouteFacts.

Section facts.
Context `{PathToRegexp}.
Variable Context : Type.
Variable ctx_params : Context → Params.

Implicit Types (r : Route.Route Context) (m : Route.Entry Context)
  (stack middlewares : list (Route.Entry Context)) (opts : Route.RouteOptions).

(** *** The constructor *)

Lemma new_named path methods middlewares opts :
  Route.has_name opts = true →
  Route.new path methods middlewares opts
  = '(regexp, keys) ← pathToRegexp path (Route.opt_lib opts);
    Returns {| Route.name := Route.opt_name opts;
               Route.methods := Route.map_methods methods;
               Route.keys := key_name <$> keys;
               Route.stack := middlewares;
               Route.opts := opts;
               Route.path := match path with
                             | PathRegExp re => regexp_source re
                             | PathString s => s
                             end;
               Route.regexp := regexp |}.
Proof. intros Hname. unfold Route.new. rewrite Hname. done. Qed.

Lemma new_unnamed_invalid path methods middlewares opts :
  Route.has_name opts = false →
  existsb (λ fn, negb (Route.is_function fn)) middlewares = true →
  Route.new path methods middlewares opts = Throws Route.MiddlewareTypeError.
Proof. intros Hname Hbad. unfold Route.new. rewrite Hname, Hbad. done. Qed.

(** C8 (amended).  When the middleware list holds an entry that is not a
    function, construction fails with the middleware type error if no name
    (or an empty one) is given; when a name is given the list is not
    inspected: the route is built with that list as its stack, or the
    pattern's own error is raised. *)
Theorem new_validates_unless_named path methods middlewares opts :
  existsb (λ fn, negb (Route.is_function fn)) middlewares = true →
  (Route.has_name opts = false →
   Route.new path methods middlewares opts = Throws Route.MiddlewareTypeError)
  ∧ (Route.has_name opts = true →
     match Route.new path methods middlewares opts with
     | Returns r => Route.stack r = middlewares
                    ∧ Route.name r = Route.opt_name opts
                    ∧ ∃ keys, pathToRegexp path (Route.opt_lib opts)
                              = Returns (Route.regexp r, keys)
     | Throws e => pathToRegexp path (Route.opt_lib opts) = Throws e
     end).
Proof.
  intros Hbad. split; intros Hname.
  - by apply new_unnamed_invalid.
  - rewrite new_named by done.
    destruct (pathToRegexp path (Route.opt_lib opts)) as [[regexp keys]|e]; simpl.
    + eauto.
    + done.
Qed.

(** *** Methods *)

Lemma map_methods_foldl (all : list string) : ∀ methods acc,
  "GET" ∈ all →
  foldl (λ (acc : list string) method,
           let method := Shared.upper method in
           if bool_decide (method ≠ "HEAD") && negb (bool_decide ("GET" ∈ all))
           then acc ++ [method] else acc) acc methods = acc.
Proof.
  induction methods as [|m methods IH]; intros acc Hin; simpl; [done|].
  rewrite IH by done.
  rewrite (bool_decide_eq_true_2 ("GET" ∈ all)) by done.
  simpl. by rewrite andb_false_r.
Qed.

(** A method list that holds ['GET'] maps to no method at all. *)
Lemma map_methods_with_GET methods :
  "GET" ∈ methods → Route.map_methods methods = [].
Proof. intros Hin. unfold Route.map_methods. by apply map_methods_foldl. Qed.

(** C3.  A route declared for [['GET']] stores the empty method list: it
    holds neither [GET] nor [HEAD]. *)
Theorem methods_of_GET_route :
  Route.map_methods ["GET"] = []
  ∧ ("GET" ∉ Route.map_methods ["GET"])
  ∧ ("HEAD" ∉ Route.map_methods ["GET"]).
Proof.
  rewrite map_methods_with_GET by (apply list_elem_of_here).
  split; [done|]. split; apply not_elem_of_nil.
Qed.

(** Without ['GET'] in the list the other methods are kept, in upper case,
    and [HEAD] is dropped. *)
Example map_methods_samples :
  Route.map_methods ["put"; "HEAD"; "POST"] = ["PUT"; "POST"]
  ∧ Route.map_methods ["HEAD"] = []
  ∧ Route.map_methods ["GET"; "HEAD"] = []
  ∧ Route.map_methods ["get"] = ["GET"].
Proof. repeat split; reflexivity. Qed.

(** *** Matching and captures *)

(** What the module does with the match array: [captures] drops its first
    entry and keeps the others as the engine gave them.  How many entries
    there are, and which of them are strings, is decided by the expression
    the library built and by the engine that runs it. *)
Lemma captures_of_match r str (found : list (option string)) :
  Route.opt_ignoreCaptures (Route.opts r) = false →
  regexp_match (Route.regexp r) str = Some found →
  Route.captures r str = drop 1 found.
Proof. intros Hcollect Hm. unfold Route.captures. by rewrite Hcollect, Hm. Qed.

(** The names a route keeps are the names of the keys the library reported,
    in the library's order. *)
Lemma new_keys path methods middlewares opts r :
  Route.new path methods middlewares opts = Returns r →
  ∃ keys, pathToRegexp path (Route.opt_lib opts) = Returns (Route.regexp r, keys)
          ∧ Route.keys r = key_name <$> keys.
Proof.
  intros Hnew. unfold Route.new in Hnew.
  destruct (if Route.has_name opts then _ else _) as [name|e]; [|done].
  simpl in Hnew.
  destruct (pathToRegexp path (Route.opt_lib opts)) as [[regexp keys]|e]; [|done].
  simpl in Hnew. inversion Hnew; subst r. simpl. eauto.
Qed.

(** With [ignoreCaptures] nothing is collected. *)
Lemma captures_ignored r str :
  Route.opt_ignoreCaptures (Route.opts r) = true →
  Route.captures r str = [].
Proof. intros Hignore. unfold Route.captures. by rewrite Hignore. Qed.

(** *** Parameter extraction *)

Lemma params_step_in_range (keys : list KeyName) (captures : list string)
    (m : Params) (i : nat) k c :
  keys !! i = Some k → captures !! i = Some c →
  Route.params_step keys captures m i = <[prop_key k := Route.stored c]> m.
Proof.
  intros Hk Hc. unfold Route.params_step, Route.key_at, Route.capture_at, Route.stored.
  rewrite Hk, Hc. simpl. unfold Shared.decodeURIComponent.
  by destruct (Shared.globalThis_decodeURIComponent c).
Qed.

Lemma params_len_le_keys (keys : list KeyName) (captures : list string) :
  (Route.params_len keys captures ≤ length keys)%nat.
Proof. unfold Route.params_len. lia. Qed.

Lemma params_len_le_captures (keys : list KeyName) (captures : list string) :
  (Route.params_len keys captures ≤ length captures)%nat.
Proof. unfold Route.params_len. lia. Qed.

(** Every index the loop visits is inside both arrays. *)
Lemma params_reads_in_range (keys : list KeyName) (captures : list string) (i : nat) :
  i ∈ seq 0 (Route.params_len keys captures) →
  is_Some (keys !! i) ∧ is_Some (captures !! i).
Proof.
  intros [_ Hi]%elem_of_seq. simpl in Hi.
  pose proof (params_len_le_keys keys captures).
  pose proof (params_len_le_captures keys captures).
  split; apply lookup_lt_is_Some; lia.
Qed.

(** The first [n] rounds of the loop are the insertions of the first [n]
    pairs of names and captures. *)
Lemma params_loop_zip (keys : list KeyName) (captures : list string) (m : Params) :
  ∀ n, (n ≤ Route.params_len keys captures)%nat →
    foldl (Route.params_step keys captures) m (seq 0 n)
    = foldl (λ (acc : Params) kc, <[prop_key kc.1 := Route.stored kc.2]> acc) m
            (zip (take n keys) (take n captures)).
Proof.
  pose proof (params_len_le_keys keys captures) as Hlk.
  pose proof (params_len_le_captures keys captures) as Hlc.
  induction n as [|n IH]; intros Hn; [done|].
  destruct (lookup_lt_is_Some_2 keys n) as [k Hk]; [lia|].
  destruct (lookup_lt_is_Some_2 captures n) as [c Hc]; [lia|].
  rewrite seq_S, foldl_app. simpl.
  rewrite (params_step_in_range _ _ _ _ k c) by done.
  rewrite IH by lia.
  rewrite (take_S_r keys n k), (take_S_r captures n c) by done.
  rewrite zip_with_app by (rewrite !length_take; lia).
  by rewrite foldl_app.
Qed.

Lemma params_zip r captures existing :
  Route.params r captures existing
  = foldl (λ (acc : Params) kc, <[prop_key kc.1 := Route.stored kc.2]> acc) existing
          (zip (Route.keys r) captures).
Proof.
  unfold Route.params. rewrite params_loop_zip by done.
  unfold Route.params_len. by rewrite zip_with_take_both' by lia.
Qed.

Lemma params_loop_last (keys : list KeyName) (captures : list string) (m : Params)
    (i : nat) k c :
  keys !! i = Some k → captures !! i = Some c →
  ∀ n, (i < n ≤ Route.params_len keys captures)%nat →
    (∀ j k', (i < j < n)%nat → keys !! j = Some k' → prop_key k' ≠ prop_key k) →
    foldl (Route.params_step keys captures) m (seq 0 n) !! prop_key k
    = Some (Route.stored c).
Proof.
  intros Hk Hc.
  pose proof (params_len_le_keys keys captures) as Hlk.
  pose proof (params_len_le_captures keys captures) as Hlc.
  induction n as [|n IH]; intros Hn Hlater; [lia|].
  destruct (lookup_lt_is_Some_2 keys n) as [k' Hk']; [lia|].
  destruct (lookup_lt_is_Some_2 captures n) as [c' Hc']; [lia|].
  rewrite seq_S, foldl_app. simpl.
  rewrite (params_step_in_range _ _ _ _ k' c') by done.
  destruct (decide (i = n)) as [->|Hne].
  - assert (k' = k) as -> by congruence. assert (c' = c) as -> by congruence.
    apply lookup_insert_eq.
  - rewrite lookup_insert_ne by (apply (Hlater n); [lia|done]).
    apply IH; [lia|]. intros j k'' Hj. apply Hlater. lia.
Qed.

Lemma params_loop_other (keys : list KeyName) (captures : list string) (m : Params)
    (key : string) :
  ∀ n, (n ≤ Route.params_len keys captures)%nat →
    key ∉ prop_key <$> take n keys →
    foldl (Route.params_step keys captures) m (seq 0 n) !! key = m !! key.
Proof.
  pose proof (params_len_le_keys keys captures) as Hlk.
  pose proof (params_len_le_captures keys captures) as Hlc.
  induction n as [|n IH]; intros Hn Hout; [done|].
  destruct (lookup_lt_is_Some_2 keys n) as [k Hk]; [lia|].
  destruct (lookup_lt_is_Some_2 captures n) as [c Hc]; [lia|].
  rewrite (take_S_r keys n k), fmap_app in Hout by done.
  apply not_elem_of_app in Hout as [Hout Hk_ne].
  rewrite seq_S, foldl_app. simpl.
  rewrite (params_step_in_range _ _ _ _ k c) by done.
  rewrite lookup_insert_ne; [apply IH; [lia|done]|].
  intros <-. apply Hk_ne. simpl. apply list_elem_of_here.
Qed.

(** C5.  For a declared name and the capture at the same position, [params]
    stores under that name the percent-decoded capture, and the raw capture
    when the decoder throws; no decoding error escapes the function.  (When
    the same name is declared again at a later position that also has a
    capture, the later one is what stays Route.stored, so the statement is about
    the last position of a name.) *)
Theorem params_decode_or_raw r captures existing (i : nat) k c :
  Route.keys r !! i = Some k →
  captures !! i = Some c →
  (∀ j k', (i < j < Route.params_len (Route.keys r) captures)%nat →
           Route.keys r !! j = Some k' → prop_key k' ≠ prop_key k) →
  Route.params r captures existing !! prop_key k = Some (Route.stored c)
  ∧ (∀ decoded, Shared.globalThis_decodeURIComponent c = Returns decoded →
                Route.stored c = Str decoded)
  ∧ (∀ e, Shared.globalThis_decodeURIComponent c = Throws e → Route.stored c = Str c).
Proof.
  intros Hk Hc Hlast. split; [|split].
  - unfold Route.params. apply (params_loop_last _ _ _ i k c); [done|done| |done].
    split; [|done]. unfold Route.params_len.
    apply lookup_lt_Some in Hk, Hc. lia.
  - intros decoded Hd. unfold Route.stored. by rewrite Hd.
  - intros e He. unfold Route.stored. by rewrite He.
Qed.

(** C10.  [params] is defined for every list of captures and every existing
    map: the loop runs [min (number of names) (number of captures)] rounds,
    every index it reads is inside both arrays, the result is the existing
    map after the insertions of the first [min] pairs in order, and a key
    that is none of the first [min] names keeps what the existing map had. *)
Theorem params_total r captures existing :
  length (seq 0 (Route.params_len (Route.keys r) captures))
  = Nat.min (length (Route.keys r)) (length captures)
  ∧ (∀ i, i ∈ seq 0 (Route.params_len (Route.keys r) captures) →
          is_Some (Route.keys r !! i) ∧ is_Some (captures !! i))
  ∧ Route.params r captures existing
    = foldl (λ (acc : Params) kc, <[prop_key kc.1 := Route.stored kc.2]> acc) existing
            (zip (Route.keys r) captures)
  ∧ length (zip (Route.keys r) captures)
    = Nat.min (length (Route.keys r)) (length captures)
  ∧ (∀ key,
        key ∉ prop_key <$> take (Nat.min (length (Route.keys r)) (length captures))
                                (Route.keys r) →
        Route.params r captures existing !! key = existing !! key).
Proof.
  split; [by rewrite length_seq|].
  split; [apply params_reads_in_range|].
  split; [apply params_zip|].
  split; [apply length_zip|].
  intros key Hout. unfold Route.params. by apply params_loop_other.
Qed.

(** *** Reverse URLs *)

(** C7.  [url] called with a parameter object for a pattern that has names,
    when the library calls succeed and [opts.query] is truthy, be it a string
    or a structured query: the call does not return a URL, it throws the
    reference error for [parseUrl]. *)
Theorem url_query_throws r (fields : gmap string JsValue) (opts : JsValue)
    toPath tokens replaced :
  compile (Route.strip_wildcards (Route.path r)) opts = Returns toPath →
  parse (Route.strip_wildcards (Route.path r)) = Returns tokens →
  existsb truthy_name (Route.token_name <$> tokens) = true →
  toPath (Obj fields) = Returns replaced →
  truthy (get_field opts "query") = true →
  Route.url r (Obj fields) opts = Throws (ReferenceError "parseUrl").
Proof.
  intros Hcompile Hparse Hnames Hpath Hquery. unfold Route.url.
  replace (match opts with Undefined => Obj ∅ | _ => opts end) with opts
    by (by destruct opts).
  rewrite Hcompile. simpl. rewrite Hparse. simpl. rewrite Hnames, Hpath. simpl.
  rewrite Hquery.
  replace (truthy opts) with true; [done|].
  destruct opts as [|q|fs|items]; done.
Qed.

(** *** Parameter interceptors *)

Lemma stops_scan_true keys idx m :
  Route.stops_scan keys idx m = true
  ↔ Route.is_interceptor m = false ∨ Route.rank keys m > idx.
Proof.
  unfold Route.stops_scan, Route.is_interceptor, Route.rank.
  destruct (Route.entry_param m) as [p|]; [|naive_solver].
  by rewrite orb_true_iff, negb_false_iff, (bool_decide_eq_true (_ > _)).
Qed.

Lemma stops_scan_false keys idx m :
  Route.stops_scan keys idx m ≠ true
  ↔ Route.is_interceptor m = true ∧ Route.rank keys m ≤ idx.
Proof.
  rewrite stops_scan_true. destruct (Route.is_interceptor m); split.
  - intros Hn. split; [done|]. destruct (decide (Route.rank keys m ≤ idx)); [done|].
    exfalso. apply Hn. right. lia.
  - intros [_ Hle] [Hf|Hgt]; [done|lia].
  - intros Hn. exfalso. apply Hn. by left.
  - intros [Hf _]. done.
Qed.

(** What [param] does to the stack, by cases on the scan. *)
Lemma param_stack r p fn :
  Route.stack (Route.param ctx_params r p fn)
  = if bool_decide (Route.indexOf (Route.keys r) (NameStr p) ≠ -1) then
      match list_find (λ m, Route.stops_scan (Route.keys r)
                              (Route.indexOf (Route.keys r) (NameStr p)) m = true)
                      (Route.stack r) with
      | Some (i, _) =>
          Route.splice_in i (Route.Fn (Route.param_middleware ctx_params p fn))
                          (Route.stack r)
      | None => Route.stack r
      end
    else Route.stack r.
Proof.
  unfold Route.param. case_bool_decide; [|done].
  by destruct (list_find _ _) as [[i m]|].
Qed.

(** C2.  When the scan finds no position (every entry of the stack is an
    interceptor for a parameter declared no later than the new one, or the
    stack is empty), [param] leaves the stack as it was: the new interceptor
    is not appended. *)
Theorem param_without_position r p fn :
  Forall (λ m, Route.is_interceptor m = true
               ∧ Route.rank (Route.keys r) m ≤ Route.indexOf (Route.keys r) (NameStr p))
         (Route.stack r) →
  Route.param ctx_params r p fn = r.
Proof.
  intros Hall. unfold Route.param. case_bool_decide; [|done].
  destruct (list_find _ _) as [[i m]|] eqn:Hfind; [|done].
  apply list_find_Some in Hfind as (Hi & Hstop & _).
  rewrite Forall_forall in Hall.
  destruct (Hall m) as [Hic Hrank]; [by eapply list_elem_of_lookup_2|].
  apply stops_scan_true in Hstop as [Hf|Hgt]; [congruence|lia].
Qed.

(** When the scan finds a position the invariant of the stack is kept:
    interceptors stay Route.before every handler and stay in declaration order. *)
Lemma param_keeps_order r p fn :
  p ≠ "" →
  Route.ordered (Route.keys r) (Route.stack r) →
  Route.ordered (Route.keys r) (Route.stack (Route.param ctx_params r p fn)).
Proof.
  intros Hp Hord. rewrite param_stack. case_bool_decide; [|done].
  set (idx := Route.indexOf (Route.keys r) (NameStr p)) in *.
  set (mw := Route.Fn (Route.param_middleware ctx_params p fn)).
  destruct (list_find _ _) as [[i m]|] eqn:Hfind; [|done].
  apply list_find_Some in Hfind as (Hi & Hstop & Hearlier).
  assert (Route.is_interceptor mw = true) as Hmw.
  { unfold Route.is_interceptor. simpl. by rewrite bool_decide_eq_false_2. }
  assert (Route.rank (Route.keys r) mw = idx) as Hrank by done.
  unfold Route.ordered, Route.splice_in in *.
  rewrite <- (take_drop i (Route.stack r)) in Hord.
  apply StronglySorted_app in Hord as (Hcross & Htake & Hdrop).
  assert (∀ a, a ∈ take i (Route.stack r) →
               Route.is_interceptor a = true ∧ Route.rank (Route.keys r) a ≤ idx) as Hlow.
  { intros a (j & Hj & Hlt)%elem_of_take.
    apply (stops_scan_false (Route.keys r) idx). by apply (Hearlier j). }
  apply StronglySorted_app. split; [|split; [done|]].
  - intros a b Ha [->|Hb]%elem_of_cons; [|by apply Hcross].
    destruct (Hlow a Ha) as [Hia Hra]. split; [congruence|]. intros _ _. lia.
  - apply StronglySorted_cons. split; [|done].
    rewrite (drop_S _ m i) in Hdrop |- * by done.
    apply StronglySorted_cons in Hdrop as [Hafter _].
    apply stops_scan_true in Hstop.
    assert (Route.before (Route.keys r) mw m) as Hm.
    { split; [congruence|]. intros _ Him. destruct Hstop; [congruence|lia]. }
    constructor; [done|].
    eapply Forall_impl; [exact Hafter|]. simpl. intros b [Hhandler Hranks].
    split; [congruence|]. intros _ Hib.
    destruct (Route.is_interceptor m) eqn:Him.
    + specialize (Hranks eq_refl Hib). destruct Hstop; [congruence|lia].
    + rewrite Hhandler in Hib; done.
Qed.

(** The handlers of the route keep their relative order. *)
Lemma param_keeps_handlers r p fn :
  p ≠ "" →
  filter (λ m, Route.is_interceptor m = false)
         (Route.stack (Route.param ctx_params r p fn))
  = filter (λ m, Route.is_interceptor m = false) (Route.stack r).
Proof.
  intros Hp. rewrite param_stack. case_bool_decide; [|done].
  destruct (list_find _ _) as [[i m]|]; [|done].
  unfold Route.splice_in. rewrite filter_app, filter_cons_False.
  - by rewrite <- filter_app, take_drop.
  - unfold Route.is_interceptor. simpl. by rewrite bool_decide_eq_false_2.
Qed.

End facts.

(** The first example of the specification, [/users/:id] and [/users/42],
    on the segment patterns. *)
Example captures_sample :
  ∃ r : Route.Route Examples.Ctx,
    Route.new (PathString "/users/:id") ["PUT"] [] Route.empty_options = Returns r
    ∧ Route.matches r "/users/42" = true
    ∧ Route.captures r "/users/42" = [Some "42"]
    ∧ Route.keys r = [NameStr "id"].
Proof. eexists. repeat split; reflexivity. Qed.

(** An unnamed route with an entry that is not a function is refused. *)
Lemma new_validates_unless_named_witness :
  Route.new (Context:=Examples.Ctx) (PathString "/x") ["PUT"]
            [Route.NotFn None] Route.empty_options
  = Throws Route.MiddlewareTypeError.
Proof.
  apply (new_validates_unless_named (H:=Segments.lib) Examples.Ctx
           (PathString "/x") ["PUT"] [Route.NotFn None] Route.empty_options);
    reflexivity.
Defined.

(** C8 as stated fails: with a name, the same list is accepted. *)
Lemma named_route_skips_validation :
  Route.new (Context:=Examples.Ctx) (PathString "/x") ["PUT"]
            [Route.NotFn None]
            {| Route.opt_name := Some "x"; Route.opt_ignoreCaptures := false;
               Route.opt_lib := tt |}
  ≠ Throws Route.MiddlewareTypeError.
Proof. vm_compute. discriminate. Qed.

(** A malformed escape keeps the raw capture; a well-formed one is decoded. *)
Lemma params_decode_or_raw_witness :
  ∃ r : Route.Route Examples.Ctx,
    Route.new (PathString "/:a/:b") ["PUT"] [] Route.empty_options = Returns r
    ∧ Route.params r ["x%20y"; "100%"] ∅ !! "a" = Some (Str "x y")
    ∧ Route.params r ["x%20y"; "100%"] ∅ !! "b" = Some (Str "100%").
Proof.
  eexists. split; [reflexivity|]. split.
  - eapply (params_decode_or_raw Examples.Ctx _ ["x%20y"; "100%"] ∅ 0
              (NameStr "a") "x%20y"); [reflexivity|reflexivity|].
    intros j k' Hj Hk'. vm_compute in Hj.
    assert (j = 1%nat) as -> by lia. vm_compute in Hk'. by inversion Hk'.
  - eapply (params_decode_or_raw Examples.Ctx _ ["x%20y"; "100%"] ∅ 1
              (NameStr "b") "100%"); [reflexivity|reflexivity|].
    intros j k' Hj Hk'. vm_compute in Hj. lia.
Defined.

(** The failing input of C2: a route that declares [x] and has no handler. *)
Lemma param_without_position_witness :
  ∃ r : Route.Route Examples.Ctx,
    Route.new (PathString "/a/:x") ["PUT"] [] Route.empty_options = Returns r
    ∧ Route.keys r = [NameStr "x"]
    ∧ Route.stack (Route.param Examples.ctx_params r "x" (Examples.intercept "x")) = [].
Proof.
  eexists. split; [reflexivity|]. split; [reflexivity|].
  rewrite (param_without_position (H:=Segments.lib) Examples.Ctx Examples.ctx_params).
  - reflexivity.
  - constructor.
Defined.

(** The ordering example of the specification: [/a/:x/:y] with one handler,
    interceptors registered for [y], then for [x]. *)
Example param_declaration_order :
  ∃ r : Route.Route Examples.Ctx,
    Route.new (PathString "/a/:x/:y") ["PUT"] [Route.Fn (Examples.answer "h")]
              Route.empty_options = Returns r
    ∧ Route.stack (Route.param Examples.ctx_params
                     (Route.param Examples.ctx_params r "y" (Examples.intercept "y"))
                     "x" (Examples.intercept "x"))
      = [Route.Fn (Route.param_middleware Examples.ctx_params "x" (Examples.intercept "x"));
         Route.Fn (Route.param_middleware Examples.ctx_params "y" (Examples.intercept "y"));
         Route.Fn (Examples.answer "h")].
Proof. eexists. split; reflexivity. Qed.

(** The failing input of C7: [/posts/:slug] with a structured query, and
    with a string query. *)
Lemma url_query_throws_witness :
  ∃ r : Route.Route Examples.Ctx,
    Route.new (PathString "/posts/:slug") ["PUT"] [] Route.empty_options = Returns r
    ∧ Route.url r (Obj {["slug" := Str "a"]})
                (Obj {["query" := Obj {["page" := Str "2"]}]})
      = Throws (ReferenceError "parseUrl")
    ∧ Route.url r (Obj {["slug" := Str "a"]}) (Obj {["query" := Str "page=2"]})
      = Throws (ReferenceError "parseUrl").
Proof.
  eexists. split; [reflexivity|]. split.
  - eapply (url_query_throws (H:=Segments.lib) Examples.Ctx
              _ {["slug" := Str "a"]} (Obj {["query" := Obj {["page" := Str "2"]}]}));
      reflexivity.
  - eapply (url_query_throws (H:=Segments.lib) Examples.Ctx
              _ {["slug" := Str "a"]} (Obj {["query" := Str "page=2"]}));
      reflexivity.
Defined.

(** The same route with no query, and with an empty one. *)
Example url_without_query :
  ∃ r : Route.Route Examples.Ctx,
    Route.new (PathString "/posts/:slug") ["PUT"] [] Route.empty_options = Returns r
    ∧ Route.url r (Obj {["slug" := Str "a"]}) Undefined = Returns "/posts/a"
    ∧ Route.url r (Obj {["slug" := Str "a"]}) (Obj {["query" := Str ""]})
      = Returns "/posts/a".
Proof. eexists. split; [reflexivity|]. split; reflexivity. Qed.

End RouteFacts.


(** ** The router *)

Module RouterFacts.

Section facts.
Context `{PathToRegexp}.
Variable Context : Type.
Variable ctx_params : Context → Params.

Implicit Types (rt : Router.Router Context) (r : Route.Route Context)
  (middlewares : list (Route.Entry Context)).

(** *** [route] and [url] *)

Lemma route_Some rt name r :
  Router.route rt name = Some r →
  Router.Routed r ∈ Router.stack rt ∧ Route.name r = Some name.
Proof.
  unfold Router.route. intros Hroute.
  destruct (list_find _ _) as [[i l]|] eqn:Hfind; [|done].
  destruct l as [m|r']; [done|]. inversion Hroute; subst r'.
  apply list_find_Some in Hfind as (Hi & Hnamed & _). split.
  - by eapply list_elem_of_lookup_2.
  - simpl in Hnamed. by apply bool_decide_eq_true_1 in Hnamed.
Qed.

Lemma route_None rt name :
  (∀ r, Router.Routed r ∈ Router.stack rt → Route.name r ≠ Some name) →
  Router.route rt name = None.
Proof.
  intros Hnone. unfold Router.route.
  destruct (list_find _ _) as [[i l]|] eqn:Hfind; [|done].
  apply list_find_Some in Hfind as (Hi & Hnamed & _).
  destruct l as [m|r]; [done|]. simpl in Hnamed.
  apply bool_decide_eq_true_1 in Hnamed.
  destruct (Hnone r); [by eapply list_elem_of_lookup_2|done].
Qed.

(** When no route of the stack carries the name, [url] returns [null]. *)
Lemma url_not_found rt name params query :
  (∀ r, Router.Routed r ∈ Router.stack rt → Route.name r ≠ Some name) →
  Router.url rt name params query = Returns None.
Proof. intros Hnone. unfold Router.url. by rewrite route_None. Qed.

(** The branch of [url] for a name that is found: it does not return what
    that route's [url] returns, it throws the reference error for [opts],
    whatever the parameters and the query are.  No router of the public
    methods takes this branch ([built_url_null] below). *)
Lemma url_named_branch rt name params query r :
  Router.route rt name = Some r →
  Router.url rt name params query = Throws (ReferenceError "opts")
  ∧ Router.url_spec rt name params query = Some <$> Route.url r params query.
Proof.
  intros Hroute. unfold Router.url, Router.url_spec. by rewrite Hroute.
Qed.

(** *** [addRoute] and [param] *)

(** C6.  [addRoute] appends a route whose stack is the given middleware list
    and nothing else: the interceptors the router remembers in [#params] are
    not installed into it. *)
Theorem addRoute_ignores_params rt name methods middlewares rt' :
  Router.addRoute rt name methods middlewares = Returns rt' →
  ∃ r, Router.stack rt' = Router.stack rt ++ [Router.Routed r]
       ∧ Route.stack r = middlewares
       ∧ Router.params rt' = Router.params rt.
Proof.
  unfold Router.addRoute. intros Hadd.
  destruct (Route.new _ _ _ _) as [r|e] eqn:Hnew; [|done].
  simpl in Hadd. inversion Hadd; subst rt'; clear Hadd.
  exists r. split; [done|]. split; [|done].
  unfold Route.new in Hnew. simpl in Hnew.
  destruct (existsb _ middlewares); [done|]. simpl in Hnew.
  destruct (pathToRegexp _ _) as [[regexp keys]|e]; [|done].
  simpl in Hnew. by inversion Hnew.
Qed.

(** [param] remembers the interceptor and hands it to [Route.param] of every
    route already in the stack, leaving bare middleware alone. *)
Lemma param_registered rt p fn :
  Router.params (Router.param ctx_params rt p fn) !! p = Some fn
  ∧ ∀ i r, Router.stack rt !! i = Some (Router.Routed r) →
           Router.stack (Router.param ctx_params rt p fn) !! i
           = Some (Router.Routed (Route.param ctx_params r p fn)).
Proof.
  split.
  - simpl. apply lookup_insert_eq.
  - intros i r Hi. simpl. rewrite list_lookup_fmap, Hi. done.
Qed.

(** *** Routers built through the public methods *)

Lemma param_keeps_name r p fn : Route.name (Route.param ctx_params r p fn) = Route.name r.
Proof.
  unfold Route.param. case_bool_decide; [|done].
  by destruct (list_find _ _) as [[i m]|].
Qed.

Lemma built_unnamed rt :
  Router.built ctx_params rt →
  ∀ r, Router.Routed r ∈ Router.stack rt → Route.name r = None.
Proof.
  induction 1 as [opts|rt ms Hb IH|rt name methods ms rt' Hb IH Hadd|rt p fn Hb IH
                 |rt value Hb IH];
    intros r Hr.
  - simpl in Hr. by apply elem_of_nil in Hr.
  - simpl in Hr. apply elem_of_app in Hr as [Hr|Hr]; [by apply IH|].
    apply list_elem_of_fmap in Hr as (m & Hm & _). done.
  - unfold Router.addRoute in Hadd.
    destruct (Route.new _ _ _ _) as [r'|e] eqn:Hnew; [|done].
    simpl in Hadd. inversion Hadd; subst rt'; clear Hadd.
    simpl in Hr. apply elem_of_app in Hr as [Hr|Hr]; [by apply IH|].
    apply list_elem_of_singleton in Hr. inversion Hr; subst r'.
    unfold Route.new in Hnew. simpl in Hnew.
    destruct (existsb _ ms); [done|]. simpl in Hnew.
    destruct (pathToRegexp _ _) as [[regexp keys]|e]; [|done].
    simpl in Hnew. by inversion Hnew.
  - simpl in Hr. apply list_elem_of_fmap in Hr as (l & Hl & Hin).
    destruct l as [m|r']; [done|]. inversion Hl; subst r.
    rewrite param_keeps_name. by apply IH.
  - by apply IH.
Qed.

(** [addRoute] passes no options, so no route of such a router has a name
    and [url] answers [null] for every name. *)
Lemma built_url_null rt name params query :
  Router.built ctx_params rt → Router.url rt name params query = Returns None.
Proof.
  intros Hb. apply url_not_found. intros r Hr.
  by rewrite (built_unnamed rt Hb r Hr).
Qed.


End facts.


(** The failing input of C6: the interceptor for [id] is registered first,
    the route that declares [id] is added afterwards. *)
Lemma addRoute_ignores_params_witness :
  ∃ (rt' : Router.Router Examples.Ctx) r,
    Router.get (Router.param Examples.ctx_params
                  (Router.new {| Router.opt_prefix := None; Router.opt_methods := None |})
                  "id" (Examples.intercept "id"))
               "/users/:id" [Route.Fn (Examples.answer "h")] = Returns rt'
    ∧ Router.stack rt' = [Router.Routed r]
    ∧ Route.keys r = [NameStr "id"]
    ∧ Route.stack r = [Route.Fn (Examples.answer "h")]
    ∧ Router.params rt' !! "id" = Some (Examples.intercept "id").
Proof.
  eexists.
  edestruct (addRoute_ignores_params (H:=Segments.lib) Examples.Ctx
               (Router.param Examples.ctx_params
                  (Router.new {| Router.opt_prefix := None; Router.opt_methods := None |})
                  "id" (Examples.intercept "id"))
               "/users/:id" ["GET"] [Route.Fn (Examples.answer "h")])
    as (r & Hstack & Hr & Hparams); [reflexivity|].
  exists r. split; [reflexivity|]. split; [exact Hstack|].
  split; [|split; [exact Hr|by rewrite Hparams]].
  simpl in Hstack. by inversion Hstack.
Defined.

(** In the other order the route does receive the interceptor. *)
Example param_after_addRoute :
  ∃ (rt : Router.Router Examples.Ctx),
    Router.get (Router.new {| Router.opt_prefix := None; Router.opt_methods := None |})
               "/users/:id" [Route.Fn (Examples.answer "h")] = Returns rt
    ∧ (λ l, match l with
            | Router.Routed r => Route.stack r
            | Router.Bare _ => []
            end) <$> Router.stack (Router.param Examples.ctx_params rt "id"
                                                  (Examples.intercept "id"))
      = [[Route.Fn (Route.param_middleware Examples.ctx_params "id"
                      (Examples.intercept "id"));
          Route.Fn (Examples.answer "h")]].
Proof. eexists. split; reflexivity. Qed.

(** A route registered with [get] answers no method. *)
Example get_route_methods :
  ∃ (rt : Router.Router Examples.Ctx),
    Router.get (Router.new {| Router.opt_prefix := None; Router.opt_methods := None |})
               "/users" [Route.Fn (Examples.answer "h")] = Returns rt
    ∧ (λ l, match l with
            | Router.Routed r => Route.methods r
            | Router.Bare _ => []
            end) <$> Router.stack rt = [[]].
Proof. eexists. split; reflexivity. Qed.

End RouterFacts.


(** ** Sample routes and routers *)

Module Samples.

Definition h : Route.Entry Examples.Ctx := Route.Fn (Examples.answer "h").

Definition interceptor (p : string) : Route.Entry Examples.Ctx :=
  Route.Fn (Route.param_middleware Examples.ctx_params p (Examples.intercept p)).

(** [new Route('/a/:x/:y', ['PUT'], [h])]. *)
Definition xy_route : Route.Route Examples.Ctx :=
  {| Route.name := None; Route.methods := ["PUT"];
     Route.keys := [NameStr "x"; NameStr "y"];
     Route.stack := [h];
     Route.opts := Route.empty_options;
     Route.path := "/a/:x/:y";
     Route.regexp := [Segments.Lit ""; Segments.Lit "a"; Segments.Par "x";
                      Segments.Par "y"] |}.

(** [xy_route] after [param('y', ...)]. *)
Definition xy_route_y : Route.Route Examples.Ctx :=
  Route.param Examples.ctx_params xy_route "y" (Examples.intercept "y").

(** [new Route('/posts/:slug', ['PUT'], [])]. *)
Definition posts_route : Route.Route Examples.Ctx :=
  {| Route.name := None; Route.methods := ["PUT"];
     Route.keys := [NameStr "slug"];
     Route.stack := [];
     Route.opts := Route.empty_options;
     Route.path := "/posts/:slug";
     Route.regexp := [Segments.Lit ""; Segments.Lit "posts"; Segments.Par "slug"] |}.

(** A context whose [redirect] records the target and whose [status]
    setter refuses codes outside 100..600, as res.ts does. *)
Definition redirect_to (url : string) (c : Examples.Ctx) : Result Examples.Ctx :=
  Returns (Examples.say ("Location: " +:+ url) c).

Definition set_status (status : Z) (c : Examples.Ctx) : Result Examples.Ctx :=
  if bool_decide (status < 100 ∨ status > 600)
  then Throws (TypeError "Invalid status code")
  else Returns (Examples.say "status set" c).

(** [new Router()] followed by [put('/old', h)]. *)
Definition empty_router : Router.Router Examples.Ctx :=
  Router.new {| Router.opt_prefix := None; Router.opt_methods := None |}.

End Samples.

(** * Further properties *)

(** ** The dispatch chain: order of execution *)

Module ChainLaws.
Import Chain.

Section laws.
Variable Context : Type.
Implicit Types (s : State Context) (b : Body Context)
  (next : State Context → Completion * State Context)
  (rest : list (Middleware Context))
  (layers : list ((Context → Context) * (Context → Context))).

(** *** Entries run in list order, none skipped *)

(** The log holds the first [n] indices and the cursor is at the last of
    them or further. *)
Definition counted (n : nat) s : Prop :=
  calls s = indices 0 n ∧ Z.of_nat n - 1 ≤ id s.

(** A step that, started with at least [m] and at most [total] entries
    logged, only adds the next indices to the log. *)
Definition appends (m total : Z) (f : State Context → Completion * State Context) : Prop :=
  ∀ s n, counted n s → m ≤ Z.of_nat n ≤ total →
         ∃ n', (n ≤ n')%nat ∧ Z.of_nat n' ≤ total ∧ counted n' (f s).2.

Lemma indices_snoc (n : nat) : indices 0 (S n) = indices 0 n ++ [Z.of_nat n].
Proof. unfold indices. rewrite seq_S, fmap_app. simpl. done. Qed.

Lemma run_appends m total next b :
  appends m total next → appends m total (run next b).
Proof.
  intros Hnext. induction b as [|e|f b IH|k IH|k IH]; intros s n Hs Hn; simpl.
  - exists n. split_and!; (done || lia).
  - exists n. split_and!; (done || lia).
  - apply IH; [|done]. destruct Hs. split; done.
  - by apply IH.
  - destruct (Hnext s n Hs Hn) as (n1 & Hle & Htotal & Hs1).
    destruct (next s) as [o s1]. simpl in Hs1.
    destruct (IH o s1 n1 Hs1) as (n2 & ? & ? & ?); [lia|].
    exists n2. split; [lia|done].
Qed.

Lemma dispatch_appends rest : ∀ idx,
  appends idx (idx + Z.of_nat (length rest)) (dispatch rest idx).
Proof.
  induction rest as [|fn rest IH]; intros idx s n [Hcalls Hid] Hn;
    simpl length in Hn.
  - destruct (decide (idx ≤ id s)) as [Hle|Hgt].
    + rewrite ChainFacts.dispatch_guard by done. exists n.
      unfold counted; split_and!; simpl; (done || lia).
    + rewrite ChainFacts.dispatch_nil by lia. exists n.
      unfold counted; split_and!; simpl; (done || lia).
  - destruct (decide (idx ≤ id s)) as [Hle|Hgt].
    + rewrite ChainFacts.dispatch_guard by done. exists n.
      unfold counted; split_and!; simpl; (done || lia).
    + rewrite ChainFacts.dispatch_cons by lia.
      assert (idx = Z.of_nat n) as -> by lia.
      destruct (run_appends (Z.of_nat n + 1)
                  (Z.of_nat n + Z.of_nat (length (fn :: rest)))
                  (dispatch rest (Z.of_nat n + 1)) (mw_call fn))
        with (s := log_call Context (Z.of_nat n) (set_id Context (Z.of_nat n) s))
             (n := S n) as (n' & ? & ? & ?).
      * intros s1 n1 Hs1 Hn1.
        destruct (IH (Z.of_nat n + 1) s1 n1 Hs1) as (n2 & ? & ? & ?);
          [simpl length in *; lia|].
        exists n2. simpl length in *. split_and!; (done || lia).
      * split; simpl; [|lia]. by rewrite Hcalls, indices_snoc.
      * simpl length. lia.
      * exists n'. split_and!; (done || lia).
Qed.

(** X1.  Whatever the middlewares do, the entries one [chain] call invokes
    are the first [k] entries of the list for some [k], each once and in
    list order: no entry runs before the entries in front of it, none is
    skipped, and no index outside the list is invoked. *)
Theorem chain_calls_prefix (c : Context) (middlewares : list (Middleware Context)) :
  ∃ k : nat, (k ≤ length middlewares)%nat
             ∧ calls (chain c middlewares).2 = indices 0 k.
Proof.
  destruct (dispatch_appends middlewares 0 {| id := -1; ctx := c; calls := [] |} 0%nat)
    as (k & _ & Hk & Hcalls & _).
  - split; simpl; [done|lia].
  - lia.
  - exists k. split; [lia|done].
Qed.

(** *** The onion *)

(** The state in which the entry after [layers] is dispatched: every layer
    has been invoked and has run its code before [await next()]. *)
Definition entered layers (idx : Z) s : State Context :=
  {| id := idx + Z.of_nat (length layers) - 1;
     ctx := Handlers.enter layers (ctx s);
     calls := calls s ++ indices idx (length layers) |}.

(** What the layers make of the way the inner chain settled. *)
Definition unwound layers (r : Completion * State Context) : Completion * State Context :=
  match r with
  | (Resolved, s) => (Resolved, set_ctx Context (Handlers.leave layers) s)
  | (Rejected e, s) => (Rejected e, s)
  end.

Lemma dispatch_cursor rest idx s s' :
  id s < idx → id s' < idx → ctx s = ctx s' → calls s = calls s' →
  dispatch rest idx s = dispatch rest idx s'.
Proof.
  intros Hs Hs' Hctx Hcalls.
  assert (set_id Context idx s = set_id Context idx s') as Heq.
  { unfold set_id. by rewrite Hctx, Hcalls. }
  destruct rest; simpl; rewrite !bool_decide_eq_false_2 by lia; by rewrite Heq.
Qed.

Lemma dispatch_layers layers : ∀ rest idx s,
  id s < idx →
  dispatch ((Handlers.around <$> layers) ++ rest) idx s
  = unwound layers (dispatch rest (idx + Z.of_nat (length layers)) (entered layers idx s)).
Proof.
  induction layers as [|layer layers IH]; intros rest idx s Hlt.
  - simpl. rewrite Z.add_0_r.
    rewrite (dispatch_cursor rest idx (entered [] idx s) s);
      [|simpl; lia|done|done|simpl; by rewrite app_nil_r].
    destruct (dispatch rest idx s) as [[|e] [i c l]]; done.
  - rewrite fmap_cons, <- app_comm_cons, ChainFacts.dispatch_cons by done.
    simpl run. rewrite IH by (simpl; lia).
    replace (idx + 1 + Z.of_nat (length layers))
      with (idx + Z.of_nat (length (layer :: layers))) by (simpl length; lia).
    replace (entered layers (idx + 1) _) with (entered (layer :: layers) idx s).
    + destruct (dispatch rest _ _) as [[|e] s2]; done.
    + unfold entered. simpl length. f_equal; simpl.
      * lia.
      * by rewrite ChainFacts.indices_cons, <- app_assoc.
Qed.

(** X2.  A list of middlewares that each run some code, await [next] and run
    some more code resolves; every entry is invoked once, and the context has
    gone through the code before [next] of every entry, first entry first,
    and then through the code after [next], last entry first. *)
Theorem chain_onion (c : Context) layers :
  chain c (Handlers.around <$> layers)
  = (Resolved,
     {| id := Z.of_nat (length layers) + 1;
        ctx := Handlers.leave layers (Handlers.enter layers c);
        calls := indices 0 (length layers) |}).
Proof.
  unfold chain.
  rewrite <- (app_nil_r (Handlers.around <$> layers)), dispatch_layers by (simpl; lia).
  rewrite ChainFacts.dispatch_nil by (simpl; lia). reflexivity.
Qed.


(** X4.  When an entry answers without calling [next], the chain resolves:
    the entries behind it are never invoked, and the entries in front of it
    run their code after [next], last entry first. *)
Theorem chain_final (c : Context) layers f rest :
  chain c ((Handlers.around <$> layers) ++ Handlers.final f :: rest)
  = (Resolved,
     {| id := Z.of_nat (length layers);
        ctx := Handlers.leave layers (f (Handlers.enter layers c));
        calls := indices 0 (S (length layers)) |}).
Proof.
  unfold chain. rewrite dispatch_layers by (simpl; lia).
  rewrite ChainFacts.dispatch_cons by (simpl; lia). simpl.
  rewrite indices_snoc. reflexivity.
Qed.

(** *** A second call of [next] at any depth *)

Lemma dispatch_twice fn rest idx s :
  calls_twice (mw_call fn) →
  Forall (λ m, calls_once (mw_call m)) rest →
  id s < idx →
  ∃ s', dispatch (fn :: rest) idx s = (Rejected DoubleInvocationError, s')
        ∧ calls s' = calls s ++ indices idx (S (length rest)).
Proof.
  intros Htwice Honce Hlt. rewrite ChainFacts.dispatch_cons by done.
  destruct (ChainFacts.run_calls_twice Context (dispatch rest (idx + 1))
              DoubleInvocationError (mw_call fn) idx
              (idx + 1 + Z.of_nat (length rest) + 1)
              (calls s ++ [idx])
              ((calls s ++ [idx]) ++ indices (idx + 1) (length rest)) Htwice)
    with (s := log_call Context idx (set_id Context idx s))
    as (s' & Hrun & _ & Hcalls); try done.
  - intros s1 Hi Hc.
    destruct (ChainFacts.dispatch_calls_once Context rest Honce (idx + 1) s1)
      as (s2 & ? & ? & Hc2); [lia|].
    exists s2. split; [done|]. split; [lia|]. by rewrite Hc2, Hc.
  - intros s2 Hi Hc. apply ChainFacts.dispatch_guard. lia.
  - exists s'. split; [done|].
    by rewrite Hcalls, ChainFacts.indices_cons, <- app_assoc.
Qed.

(** X5.  An entry at any depth that awaits [next] twice, behind entries that
    wrap [next] and in front of entries that each await [next] once: the
    chain is rejected with the double-invocation error, every entry of the
    list has been invoked exactly once, and the wrapping entries have not run
    their code after [next]. *)
Theorem chain_twice_at_depth (c : Context) layers fn rest :
  calls_twice (mw_call fn) →
  Forall (λ m, calls_once (mw_call m)) rest →
  ∃ s, chain c ((Handlers.around <$> layers) ++ fn :: rest)
       = (Rejected DoubleInvocationError, s)
       ∧ calls s = indices 0 (length ((Handlers.around <$> layers) ++ fn :: rest)).
Proof.
  intros Htwice Honce. unfold chain. rewrite dispatch_layers by (simpl; lia).
  destruct (dispatch_twice fn rest (0 + Z.of_nat (length layers))
              (entered layers 0 {| id := -1; ctx := c; calls := [] |}) Htwice Honce)
    as (s' & -> & Hcalls); [simpl; lia|].
  exists s'. split; [done|]. rewrite Hcalls. simpl calls.
  rewrite length_app, length_fmap. simpl length.
  generalize (S (length rest)). generalize (length layers). clear.
  intros n m. unfold indices. rewrite seq_app, fmap_app. simpl. f_equal.
  replace (seq n m) with (seq (n + 0) m) by (f_equal; lia).
  rewrite <- (fmap_add_seq n 0 m), <- list_fmap_compose.
  apply list_fmap_ext. intros _ k _. simpl. lia.
Qed.

End laws.

(** One wrapping entry, then [twice], then one entry that passes on. *)
Lemma chain_twice_at_depth_witness :
  ∃ s, chain Examples.empty_ctx
         ((Handlers.around <$> [(Examples.say "in", Examples.say "out")])
          ++ Examples.twice :: [Examples.pass "a"])
       = (Rejected DoubleInvocationError, s)
       ∧ calls s = [0; 1; 2]
       ∧ Examples.ctx_log (ctx s) = ["in"; "a"].
Proof.
  destruct (chain_twice_at_depth Examples.Ctx Examples.empty_ctx
              [(Examples.say "in", Examples.say "out")] Examples.twice
              [Examples.pass "a"]) as (s & Hs & Hcalls).
  - simpl. apply twice_next, again_next. intros e. apply rethrows_throw.
  - repeat constructor.
  - exists s. split; [exact Hs|]. split; [exact Hcalls|].
    vm_compute in Hs. by inversion Hs.
Defined.

End ChainLaws.

(** ** The request loop *)

Module AppLaws.


End AppLaws.

(** ** Routes: methods, interceptors, parameters *)

Module RouteLaws.

Section laws.
Context `{PathToRegexp}.
Variable Context : Type.
Variable ctx_params : Context → Params.

Implicit Types (r : Route.Route Context) (m : Route.Entry Context)
  (stack : list (Route.Entry Context)).

(** *** Methods *)

Lemma map_methods_acc (all : list string) : ∀ methods (acc : list string),
  "GET" ∉ all →
  foldl (λ (acc : list string) method,
           let method := Shared.upper method in
           if bool_decide (method ≠ "HEAD") && negb (bool_decide ("GET" ∈ all))
           then acc ++ [method] else acc) acc methods
  = acc ++ filter (λ method, method ≠ "HEAD") (Shared.upper <$> methods).
Proof.
  induction methods as [|method methods IH]; intros acc Hout; simpl.
  - by rewrite app_nil_r.
  - rewrite IH by done. rewrite (bool_decide_eq_false_2 ("GET" ∈ all)) by done.
    simpl. rewrite andb_true_r. rewrite filter_cons.
    destruct (decide (Shared.upper method ≠ "HEAD")) as [Hne|Heq].
    + rewrite bool_decide_eq_true_2 by done. by rewrite <- app_assoc.
    + rewrite bool_decide_eq_false_2 by done. done.
Qed.

(** X7.  For a list of method names in ASCII that does not hold ['GET'] (as
    written, before any change of case), the route stores the methods in
    upper case, in the order given, without [HEAD]. *)
Theorem map_methods_without_GET (methods : list string) :
  Forall (λ method, Shared.is_ascii method = true) methods →
  "GET" ∉ methods →
  Route.map_methods methods
  = filter (λ method, method ≠ "HEAD") (Shared.upper <$> methods).
Proof. intros _ Hout. unfold Route.map_methods. by rewrite map_methods_acc. Qed.

(** *** Interceptors *)

Lemma indexOf_absent (keys : list KeyName) x : x ∉ keys → Route.indexOf keys x = -1.
Proof.
  intros Hout. unfold Route.indexOf.
  destruct (list_find _ keys) as [[i k]|] eqn:Hfind; [|done].
  apply list_find_Some in Hfind as (Hi & -> & _).
  destruct Hout. by eapply list_elem_of_lookup_2.
Qed.

Lemma indexOf_present (keys : list KeyName) x :
  x ∈ keys → 0 ≤ Route.indexOf keys x < Z.of_nat (length keys).
Proof.
  intros Hin. unfold Route.indexOf.
  destruct (list_find _ keys) as [[i k]|] eqn:Hfind.
  - apply list_find_Some in Hfind as (Hi & _ & _).
    apply lookup_lt_Some in Hi. lia.
  - apply list_find_None in Hfind. rewrite Forall_forall in Hfind.
    by destruct (Hfind x Hin).
Qed.

(** X8.  An interceptor for a parameter the route does not declare changes
    nothing: the route is returned as it was. *)
Theorem param_undeclared r p fn :
  NameStr p ∉ Route.keys r → Route.param ctx_params r p fn = r.
Proof.
  intros Hout. unfold Route.param. rewrite indexOf_absent by done.
  rewrite bool_decide_eq_false_2; [done|]. intros Hne. by apply Hne.
Qed.

Lemma param_keeps_keys r p fn :
  Route.keys (Route.param ctx_params r p fn) = Route.keys r.
Proof.
  unfold Route.param. case_bool_decide; [|done].
  by destruct (list_find _ _) as [[i m]|].
Qed.

(** Where the scan stops when the stack holds a handler. *)
Lemma scan_stops (keys : list KeyName) (idx : Z) stack :
  (∃ m, m ∈ stack ∧ Route.is_interceptor m = false) →
  ∃ i m, list_find (λ m, Route.stops_scan keys idx m = true) stack = Some (i, m).
Proof.
  intros (m & Hin & Hm).
  destruct (list_find_elem_of (λ m, Route.stops_scan keys idx m = true) stack m)
    as [[i m'] Hfind]; [done| |eauto].
  apply RouteFacts.stops_scan_true. by left.
Qed.

(** X9.  The position of a new interceptor.  For a declared parameter and a
    stack that holds a handler, [param] inserts one entry: every entry in
    front of it is an interceptor for a parameter declared no later than the
    new one, and the entry right behind it is a handler or an interceptor for
    a parameter declared later. *)
Theorem param_position r p fn :
  NameStr p ∈ Route.keys r →
  (∃ m, m ∈ Route.stack r ∧ Route.is_interceptor m = false) →
  ∃ front m back,
    Route.stack r = front ++ m :: back
    ∧ Route.stack (Route.param ctx_params r p fn)
      = front ++ Route.Fn (Route.param_middleware ctx_params p fn) :: m :: back
    ∧ Forall (λ m', Route.is_interceptor m' = true
                    ∧ Route.rank (Route.keys r) m'
                      ≤ Route.indexOf (Route.keys r) (NameStr p)) front
    ∧ (Route.is_interceptor m = false
       ∨ Route.rank (Route.keys r) m > Route.indexOf (Route.keys r) (NameStr p)).
Proof.
  intros Hdecl Hhandler. rewrite RouteFacts.param_stack.
  pose proof (indexOf_present _ _ Hdecl) as Hidx.
  rewrite bool_decide_eq_true_2 by lia.
  destruct (scan_stops (Route.keys r) (Route.indexOf (Route.keys r) (NameStr p))
              (Route.stack r) Hhandler) as (i & m & Hfind).
  rewrite Hfind. apply list_find_Some in Hfind as (Hi & Hstop & Hearlier).
  exists (take i (Route.stack r)), m, (drop (S i) (Route.stack r)).
  rewrite <- (drop_S _ _ _ Hi). split_and!.
  - by rewrite take_drop.
  - done.
  - apply Forall_forall. intros m' (j & Hj & Hlt)%elem_of_take.
    apply (RouteFacts.stops_scan_false Context). by apply (Hearlier j).
  - by apply RouteFacts.stops_scan_true.
Qed.

(** *** A sequence of registrations *)

(** [route.param(p1, fn1).param(p2, fn2)...]. *)
Definition register r (regs : list (string * Route.ParamMiddleware Context))
    : Route.Route Context :=
  foldl (λ r reg, Route.param ctx_params r reg.1 reg.2) r regs.

Lemma handlers_ordered (keys : list KeyName) stack :
  Forall (λ m, Route.is_interceptor m = false) stack → Route.ordered keys stack.
Proof.
  induction 1 as [|m stack Hm Hall IH]; constructor; [done|].
  eapply Forall_impl; [exact Hall|]. intros m' Hm'. split; [done|congruence].
Qed.

Lemma param_inserts r p fn :
  NameStr p ∈ Route.keys r →
  (∃ m, m ∈ Route.stack r ∧ Route.is_interceptor m = false) →
  length (Route.stack (Route.param ctx_params r p fn)) = S (length (Route.stack r))
  ∧ ∃ m, m ∈ Route.stack (Route.param ctx_params r p fn)
         ∧ Route.is_interceptor m = false.
Proof.
  intros Hdecl Hhandler. rewrite RouteFacts.param_stack.
  pose proof (indexOf_present _ _ Hdecl) as Hidx.
  rewrite bool_decide_eq_true_2 by lia.
  destruct (scan_stops (Route.keys r) (Route.indexOf (Route.keys r) (NameStr p))
              (Route.stack r) Hhandler) as (i & m & Hfind).
  rewrite Hfind. apply list_find_Some in Hfind as (Hi & _ & _).
  apply lookup_lt_Some in Hi. unfold Route.splice_in. split.
  - rewrite length_app, length_take. simpl. rewrite length_drop. lia.
  - destruct Hhandler as (m' & Hin & Hm'). exists m'. split; [|done].
    rewrite <- (take_drop i (Route.stack r)) in Hin.
    apply elem_of_app in Hin as [Hin|Hin]; apply elem_of_app; [by left|].
    right. by apply list_elem_of_further.
Qed.

Lemma filter_handlers_all stack :
  Forall (λ m, Route.is_interceptor m = false) stack →
  filter (λ m, Route.is_interceptor m = false) stack = stack.
Proof.
  induction 1 as [|m stack Hm Hall IH]; [done|].
  rewrite filter_cons_True by done. by rewrite IH.
Qed.

Lemma register_invariant regs : ∀ r,
  Route.ordered (Route.keys r) (Route.stack r) →
  (∃ m, m ∈ Route.stack r ∧ Route.is_interceptor m = false) →
  Forall (λ reg, reg.1 ≠ "" ∧ NameStr reg.1 ∈ Route.keys r) regs →
  Route.keys (register r regs) = Route.keys r
  ∧ Route.ordered (Route.keys r) (Route.stack (register r regs))
  ∧ filter (λ m, Route.is_interceptor m = false) (Route.stack (register r regs))
    = filter (λ m, Route.is_interceptor m = false) (Route.stack r)
  ∧ length (Route.stack (register r regs))
    = (length (Route.stack r) + length regs)%nat.
Proof.
  induction regs as [|[p fn] regs IH]; intros r Hord Hhandler Hregs.
  - simpl. split_and!; [done|done|done|lia].
  - inversion Hregs as [|? ? [Hp Hdecl] Hregs']; subst. simpl in Hp, Hdecl.
    destruct (param_inserts r p fn Hdecl Hhandler) as [Hlen Hhandler'].
    pose proof (param_keeps_keys r p fn) as Hkeys.
    destruct (IH (Route.param ctx_params r p fn)) as (Hk & Ho & Hf & Hl).
    + rewrite Hkeys. by apply RouteFacts.param_keeps_order.
    + done.
    + by rewrite Hkeys.
    + simpl. split_and!.
      * by rewrite Hk.
      * by rewrite <- Hkeys.
      * rewrite Hf. by apply RouteFacts.param_keeps_handlers.
      * rewrite Hl, Hlen. simpl. lia.
Qed.

(** X10.  A route built with handlers only, at least one, on which
    interceptors are then registered for declared parameters, in any order
    and any number of times: every registration adds one entry, all
    interceptors stand in front of the handlers, interceptors are in the
    order in which their parameters are declared, and the handlers are the
    original ones in their original order. *)
Theorem register_ordered r regs :
  Route.stack r ≠ [] →
  Forall (λ m, Route.is_interceptor m = false) (Route.stack r) →
  Forall (λ reg, reg.1 ≠ "" ∧ NameStr reg.1 ∈ Route.keys r) regs →
  Route.ordered (Route.keys r) (Route.stack (register r regs))
  ∧ filter (λ m, Route.is_interceptor m = false) (Route.stack (register r regs))
    = Route.stack r
  ∧ length (Route.stack (register r regs))
    = (length (Route.stack r) + length regs)%nat.
Proof.
  intros Hne Hall Hregs.
  destruct (register_invariant regs r) as (_ & Hord & Hf & Hlen).
  - by apply handlers_ordered.
  - destruct (Route.stack r) as [|m stack] eqn:Hstack; [done|].
    exists m. split; [apply list_elem_of_here|]. by inversion Hall.
  - done.
  - split_and!; [done| |done]. by rewrite Hf, filter_handlers_all.
Qed.

(** *** Paths that do not match, and the keys of the parameter map *)

(** X11.  For a path the route does not match, [captures] is empty and
    [params] of these captures returns the existing map unchanged. *)
Theorem no_match_no_params r (path : string) (existing : Params) :
  Route.matches r path = false →
  Route.captures r path = []
  ∧ ∀ captures : list string,
      Some <$> captures = Route.captures r path →
      Route.params r captures existing = existing.
Proof.
  intros Hno. unfold Route.matches in Hno. apply bool_decide_eq_false_1 in Hno.
  assert (Route.captures r path = []) as ->.
  { unfold Route.captures. destruct (Route.opt_ignoreCaptures _); [done|].
    destruct (regexp_match _ _) as [m|]; [|done]. destruct Hno. eauto. }
  split; [done|]. intros captures Hcaps.
  apply fmap_nil_inv in Hcaps as ->.
  unfold Route.params, Route.params_len. simpl. by rewrite Nat.min_0_r.
Qed.

Lemma dom_inserted (pairs : list (KeyName * string)) : ∀ (m : Params),
  dom (foldl (λ (acc : Params) kc, <[prop_key kc.1 := Route.stored kc.2]> acc) m pairs)
  = dom m ∪ list_to_set (prop_key <$> pairs.*1).
Proof.
  induction pairs as [|[k c] pairs IH]; intros m; simpl.
  - by rewrite (right_id_L ∅ (∪)).
  - rewrite IH, dom_insert_L.
    by rewrite (comm_L (∪) {[prop_key k]} (dom m)), (assoc_L (∪)).
Qed.

(** X12.  The keys of the map [params] returns are the keys of the existing
    map and the names that have a capture, that is the first
    [min (number of names) (number of captures)] names. *)
Theorem params_dom r (captures : list string) (existing : Params) :
  dom (Route.params r captures existing)
  = dom existing
    ∪ list_to_set (prop_key <$> take (length captures) (Route.keys r)).
Proof.
  unfold Route.params. rewrite RouteFacts.params_loop_zip by done.
  rewrite dom_inserted. f_equal. f_equal. f_equal.
  rewrite fst_zip by (rewrite !length_take; unfold Route.params_len; lia).
  unfold Route.params_len.
  destruct (decide (length (Route.keys r) ≤ length captures)%nat).
  - rewrite Nat.min_l by done. by rewrite !take_ge by lia.
  - by rewrite Nat.min_r by lia.
Qed.

(** *** Captures without escapes *)

Lemma units_plain (a : ascii) (rest : string) :
  a ≠ "%"%char →
  Shared.units (String a rest) = (Shared.Plain a ::.) <$> Shared.units rest.
Proof.
  intros Ha.
  destruct a as [[] [] [] [] [] [] [] []]; try reflexivity.
  by destruct Ha.
Qed.

Lemma decode_plain (s : string) :
  "%"%char ∉ String.list_ascii_of_string s →
  Shared.units s ≫= Shared.decode_units = Some s.
Proof.
  induction s as [|a s IH]; intros Hout; [done|].
  simpl in Hout. apply not_elem_of_cons in Hout as [Ha Hrest].
  rewrite units_plain by done. specialize (IH Hrest).
  destruct (Shared.units s) as [us|]; [|done]. simpl in *.
  by rewrite IH.
Qed.

(** X13.  A string without a percent sign is its own decoding, so a capture
    without a percent sign is stored as it is. *)
Theorem decode_without_percent (s : string) :
  "%"%char ∉ String.list_ascii_of_string s →
  Shared.decodeURIComponent s = Some s ∧ Route.stored s = Str s.
Proof.
  intros Hout. pose proof (decode_plain s Hout) as Hd.
  unfold Shared.decodeURIComponent, Route.stored, Shared.globalThis_decodeURIComponent.
  by rewrite Hd.
Qed.

(** *** Wildcard groups *)

Lemma strip_wildcards_other (a : ascii) (rest : string) :
  a ≠ "("%char →
  Route.strip_wildcards (String a rest) = String a (Route.strip_wildcards rest).
Proof.
  intros Ha.
  destruct a as [[] [] [] [] [] [] [] []]; try reflexivity.
  by destruct Ha.
Qed.

Lemma append_empty (s : string) : s +:+ "" = s.
Proof.
  induction s as [|a s IH]; [done|].
  change (String a (s +:+ "") = String a s). by rewrite IH.
Qed.

Lemma strip_wildcards_prefix (front rest : string) :
  "("%char ∉ String.list_ascii_of_string front →
  Route.strip_wildcards (front +:+ rest) = front +:+ Route.strip_wildcards rest.
Proof.
  induction front as [|a front IH]; intros Hout; [done|].
  simpl in Hout. apply not_elem_of_cons in Hout as [Ha Hfront].
  change (Route.strip_wildcards (String a (front +:+ rest))
          = String a (front +:+ Route.strip_wildcards rest)).
  rewrite strip_wildcards_other by done. by rewrite IH.
Qed.

(** X22.  Text without an opening parenthesis is kept as it is, and a
    wildcard group (parenthesis, dot, star, parenthesis) between two such
    texts is removed. *)
Theorem strip_wildcards_group (front back : string) :
  "("%char ∉ String.list_ascii_of_string front →
  "("%char ∉ String.list_ascii_of_string back →
  Route.strip_wildcards front = front
  ∧ Route.strip_wildcards (front +:+ "(.*)" +:+ back) = front +:+ back.
Proof.
  intros Hfront Hback.
  assert (∀ s, "("%char ∉ String.list_ascii_of_string s →
               Route.strip_wildcards s = s) as Hplain.
  { intros s Hs. rewrite <- (append_empty s) at 1.
    rewrite strip_wildcards_prefix by done. simpl.
    apply append_empty. }
  split; [by apply Hplain|].
  rewrite strip_wildcards_prefix by done.
  change (Route.strip_wildcards ("(.*)" +:+ back)) with (Route.strip_wildcards back).
  by rewrite Hplain.
Qed.

(** *** Reverse URLs from an array *)

Lemma assign_names_last (names : list KeyName) (items : list JsValue) :
  ∀ (i : nat) (replace : Params) (j : nat) name,
    names !! j = Some name →
    (∀ j' name', (j < j')%nat → names !! j' = Some name' →
                 prop_key name' ≠ prop_key name) →
    Route.assign_names names items i replace !! prop_key name
    = Some (default Undefined (items !! (i + j)%nat)).
Proof.
  induction names as [|n names IH]; intros i replace j name Hj Hlast; [done|].
  simpl. destruct j as [|j].
  - simpl in Hj. inversion Hj; subst n. rewrite Nat.add_0_r.
    clear IH Hj. revert i replace Hlast.
    assert (∀ (rest : list KeyName) (i' : nat) (replace : Params) v,
              (∀ name', name' ∈ rest → prop_key name' ≠ prop_key name) →
              replace !! prop_key name = Some v →
              Route.assign_names rest items i' replace !! prop_key name = Some v)
      as Hkeep.
    { induction rest as [|n' rest IHrest]; intros i' replace v Hnot Hv; [done|].
      simpl. apply IHrest.
      - intros name' Hin. apply Hnot. by apply list_elem_of_further.
      - rewrite lookup_insert_ne; [done|]. apply Hnot, list_elem_of_here. }
    intros i replace Hlast. apply Hkeep.
    + intros name' (j' & Hj')%list_elem_of_lookup.
      apply (Hlast (S j')); [lia|done].
    + apply lookup_insert_eq.
  - simpl in Hj. replace (i + S j)%nat with (S i + j)%nat by lia.
    apply IH; [done|]. intros j' name' Hlt Hj'.
    apply (Hlast (S j')); [lia|done].
Qed.

(** X14.  [url] called with an array and no query: the values are handed to
    the compiled path function under the names of the tokens of the pattern
    by position, literal text tokens counted like parameters, [undefined]
    where the array is too short. *)
Theorem url_array r (items : list JsValue) (opts : JsValue) toPath tokens :
  compile (Route.strip_wildcards (Route.path r))
          (match opts with Undefined => Obj ∅ | _ => opts end) = Returns toPath →
  parse (Route.strip_wildcards (Route.path r)) = Returns tokens →
  truthy (get_field opts "query") = false →
  ∃ replace : Params,
    Route.url r (Arr items) opts = toPath (Obj replace)
    ∧ ∀ (j : nat) t,
        tokens !! j = Some t →
        (∀ j' t', (j < j')%nat → tokens !! j' = Some t' →
                  prop_key (Route.token_name t') ≠ prop_key (Route.token_name t)) →
        replace !! prop_key (Route.token_name t)
        = Some (default Undefined (items !! j)).
Proof.
  intros Hcompile Hparse Hquery.
  exists (Route.assign_names (Route.token_name <$> tokens) items 0 ∅). split.
  - unfold Route.url. rewrite Hcompile. simpl. rewrite Hparse. simpl.
    destruct (toPath _) as [replaced|e]; [|done]. simpl.
    replace (get_field (match opts with Undefined => Obj ∅ | _ => opts end) "query")
      with (get_field opts "query") by (by destruct opts).
    by rewrite Hquery, andb_false_r.
  - intros j t Hj Hlast.
    rewrite (assign_names_last _ items 0 ∅ j (Route.token_name t)).
    + done.
    + by rewrite list_lookup_fmap, Hj.
    + intros j' name' Hlt Hj'. rewrite list_lookup_fmap in Hj'.
      destruct (tokens !! j') as [t'|] eqn:Ht'; [|done].
      inversion Hj'; subst name'. by apply (Hlast j').
Qed.

End laws.

(** Methods without [GET]. *)
Lemma map_methods_without_GET_witness :
  Route.map_methods ["put"; "head"; "Post"] = ["PUT"; "POST"].
Proof.
  apply (map_methods_without_GET ["put"; "head"; "Post"]);
    [by repeat constructor|].
  intros Hin. repeat (apply elem_of_cons in Hin as [Hin|Hin]; [discriminate|]).
  by apply elem_of_nil in Hin.
Defined.

(** The sample routes are what the constructor builds. *)
Example samples_built :
  Route.new (PathString "/a/:x/:y") ["PUT"] [Samples.h] Route.empty_options
  = Returns Samples.xy_route
  ∧ Route.new (PathString "/posts/:slug") ["PUT"] [] Route.empty_options
    = Returns Samples.posts_route.
Proof. split; reflexivity. Qed.

(** [z] is not declared by [/a/:x/:y]. *)
Lemma param_undeclared_witness :
  Route.param Examples.ctx_params Samples.xy_route "z" (Examples.intercept "z")
  = Samples.xy_route.
Proof.
  apply (param_undeclared (H:=Segments.lib) Examples.Ctx).
  intros Hin. repeat (apply elem_of_cons in Hin as [Hin|Hin]; [discriminate|]).
  by apply elem_of_nil in Hin.
Defined.

(** The interceptor for [x] goes in front of the one for [y]. *)
Lemma param_position_witness :
  Route.stack Samples.xy_route_y = [Samples.interceptor "y"; Samples.h]
  ∧ ∃ front m back,
      Route.stack Samples.xy_route_y = front ++ m :: back
      ∧ Route.stack (Route.param Examples.ctx_params Samples.xy_route_y "x"
                       (Examples.intercept "x"))
        = front ++ Samples.interceptor "x" :: m :: back
      ∧ Forall (λ m', Route.is_interceptor m' = true
                      ∧ Route.rank (Route.keys Samples.xy_route_y) m'
                        ≤ Route.indexOf (Route.keys Samples.xy_route_y) (NameStr "x"))
               front
      ∧ (Route.is_interceptor m = false
         ∨ Route.rank (Route.keys Samples.xy_route_y) m
           > Route.indexOf (Route.keys Samples.xy_route_y) (NameStr "x")).
Proof.
  split; [reflexivity|].
  apply (param_position (H:=Segments.lib) Examples.Ctx Examples.ctx_params
           Samples.xy_route_y "x" (Examples.intercept "x")).
  - apply list_elem_of_here.
  - exists Samples.h. split; [|reflexivity].
    apply list_elem_of_further, list_elem_of_here.
Defined.

(** Interceptors registered for [y], [x] and [y] again. *)
Lemma register_ordered_witness :
  Route.stack (register Examples.Ctx Examples.ctx_params Samples.xy_route
                 [("y", Examples.intercept "y"); ("x", Examples.intercept "x");
                  ("y", Examples.intercept "y2")])
  = [Samples.interceptor "x"; Samples.interceptor "y";
     Route.Fn (Route.param_middleware Examples.ctx_params "y" (Examples.intercept "y2"));
     Samples.h]
  ∧ Route.ordered (Route.keys Samples.xy_route)
      (Route.stack (register Examples.Ctx Examples.ctx_params Samples.xy_route
                      [("y", Examples.intercept "y"); ("x", Examples.intercept "x");
                       ("y", Examples.intercept "y2")])).
Proof.
  split; [reflexivity|].
  apply (register_ordered (H:=Segments.lib) Examples.Ctx Examples.ctx_params
           Samples.xy_route).
  - discriminate.
  - repeat constructor.
  - repeat (apply Forall_cons_2; [split; [discriminate|]|]);
      try apply Forall_nil_2; simpl;
      first [apply list_elem_of_here
            |apply list_elem_of_further, list_elem_of_here].
Defined.

(** [/b] does not match [/a/:x/:y]. *)
Lemma no_match_no_params_witness :
  Route.captures Samples.xy_route "/b" = []
  ∧ Route.params Samples.xy_route [] {["lang" := Str "en"]}
    = {["lang" := Str "en"]}.
Proof.
  destruct (no_match_no_params (H:=Segments.lib) Examples.Ctx Samples.xy_route
              "/b" {["lang" := Str "en"]}) as [Hnone Hsame]; [reflexivity|].
  split; [exact Hnone|]. apply Hsame. reflexivity.
Defined.

(** The capture [42] of the first example. *)
Lemma decode_without_percent_witness :
  Shared.decodeURIComponent "42" = Some "42" ∧ Route.stored "42" = Str "42".
Proof.
  apply (decode_without_percent "42").
  intros Hin. repeat (apply elem_of_cons in Hin as [Hin|Hin]; [discriminate|]).
  by apply elem_of_nil in Hin.
Defined.

(** [/posts/:slug] with the array [['a', 'b']]: [a] goes to the text token
    [/posts] and [b] to [slug]. *)
Lemma url_array_witness :
  ∃ replace : Params,
    Route.url Samples.posts_route (Arr [Str "a"; Str "b"]) Undefined
    = Returns "/posts/b"
    ∧ replace !! "/posts" = Some (Str "a")
    ∧ replace !! "slug" = Some (Str "b").
Proof.
  edestruct (url_array (H:=Segments.lib) Examples.Ctx
               Samples.posts_route [Str "a"; Str "b"] Undefined)
    as (replace & Hurl & Hat); [reflexivity|reflexivity|reflexivity|].
  exists replace. split; [by rewrite Hurl|]. split.
  - apply (Hat 0%nat (TokText "/posts")); [reflexivity|].
    intros j' t' Hlt Ht'. destruct j' as [|[|j']]; [lia| |done].
    inversion Ht'. discriminate.
  - apply (Hat 1%nat (TokKey (Segments.segment_key "slug"))); [reflexivity|].
    intros j' t' Hlt Ht'. destruct j' as [|[|j']]; [lia|lia|done].
Defined.

(** The pattern [/files/] followed by a wildcard group. *)
Lemma strip_wildcards_group_witness :
  Route.strip_wildcards "/files/" = "/files/"
  ∧ Route.strip_wildcards "/files/(.*)" = "/files/".
Proof.
  apply (strip_wildcards_group "/files/" "");
    (intros Hin; repeat (apply elem_of_cons in Hin as [Hin|Hin]; [discriminate|]);
     by apply elem_of_nil in Hin).
Defined.

(** With an array that is too short the parameter is left [undefined]. *)
Example url_short_array :
  Route.url Samples.posts_route (Arr [Str "a"]) Undefined
  = Throws (TypeError "Expected a parameter to be a string").
Proof. reflexivity. Qed.

End RouteLaws.

(** ** The router: [use], [param], [redirect], the prefix *)

Module RouterLaws.

Section laws.
Context `{PathToRegexp}.
Variable Context : Type.
Variable ctx_params : Context → Params.
Variable ctx_redirect : string → Context → Result Context.
Variable ctx_set_status : Z → Context → Result Context.

Implicit Types (rt : Router.Router Context) (r : Route.Route Context).

(** *** [use] and [param] against [route] *)

Lemma bare_not_named (name : string) (middlewares : list (Route.Entry Context)) :
  list_find (λ l, Router.is_named name l = true) (Router.Bare <$> middlewares) = None.
Proof.
  apply list_find_None, Forall_forall.
  intros l (m & -> & _)%list_elem_of_fmap. done.
Qed.

(** X15.  Bare middleware added with [use] goes behind everything registered
    before and never changes which route a name finds, nor what [url]
    returns for a name. *)
Theorem use_keeps_routes rt (middlewares : list (Route.Entry Context)) (name : string)
    (params query : JsValue) :
  Router.stack (Router.use rt middlewares)
  = Router.stack rt ++ (Router.Bare <$> middlewares)
  ∧ Router.route (Router.use rt middlewares) name = Router.route rt name
  ∧ Router.url (Router.use rt middlewares) name params query
    = Router.url rt name params query.
Proof.
  split; [done|].
  assert (Router.route (Router.use rt middlewares) name = Router.route rt name) as Hroute.
  { unfold Router.route. simpl.
    destruct (list_find _ (Router.stack rt)) as [[i l]|] eqn:Hfind.
    - by rewrite (list_find_app_l _ _ _ _ _ Hfind).
    - rewrite list_find_app_r by done. by rewrite bare_not_named. }
  split; [done|]. unfold Router.url. by rewrite Hroute.
Qed.

(** X16.  [param] changes neither the number nor the order of the layers,
    nor which route a name finds: the route found afterwards is the route
    found before with [Route.param] applied to it. *)
Theorem param_keeps_routes rt p fn (name : string) :
  length (Router.stack (Router.param ctx_params rt p fn)) = length (Router.stack rt)
  ∧ Router.route (Router.param ctx_params rt p fn) name
    = (λ r, Route.param ctx_params r p fn) <$> Router.route rt name.
Proof.
  split; [simpl; by rewrite length_fmap|].
  unfold Router.route. simpl. rewrite list_find_fmap.
  rewrite (list_find_ext _ (λ l, Router.is_named name l = true)).
  - destruct (list_find _ (Router.stack rt)) as [[i [m|r]]|]; done.
  - intros [m|r]; simpl; [done|].
    by rewrite RouterFacts.param_keeps_name.
Qed.

Lemma param_present r p fn :
  NameStr p ∈ Route.keys r →
  (∃ m, m ∈ Route.stack r ∧ Route.is_interceptor m = false) →
  Route.Fn (Route.param_middleware ctx_params p fn)
  ∈ Route.stack (Route.param ctx_params r p fn).
Proof.
  intros Hdecl Hhandler. rewrite RouteFacts.param_stack.
  pose proof (RouteLaws.indexOf_present _ _ Hdecl) as Hidx.
  rewrite bool_decide_eq_true_2 by lia.
  destruct (RouteLaws.scan_stops Context (Route.keys r)
              (Route.indexOf (Route.keys r) (NameStr p)) (Route.stack r) Hhandler)
    as (i & m & ->).
  unfold Route.splice_in. apply elem_of_app. right. apply list_elem_of_here.
Qed.

(** X21.  What [Router.param] does to the layers already in the stack: a bare
    middleware and a route that does not declare the parameter stay as they
    are; a route that declares it and has a handler gets exactly one more
    entry, the new interceptor. *)
Theorem param_installs rt p fn (i : nat) :
  (∀ m, Router.stack rt !! i = Some (Router.Bare m) →
        Router.stack (Router.param ctx_params rt p fn) !! i = Some (Router.Bare m))
  ∧ (∀ r, Router.stack rt !! i = Some (Router.Routed r) →
          NameStr p ∉ Route.keys r →
          Router.stack (Router.param ctx_params rt p fn) !! i = Some (Router.Routed r))
  ∧ (∀ r, Router.stack rt !! i = Some (Router.Routed r) →
          NameStr p ∈ Route.keys r →
          (∃ m, m ∈ Route.stack r ∧ Route.is_interceptor m = false) →
          ∃ r', Router.stack (Router.param ctx_params rt p fn) !! i
                = Some (Router.Routed r')
                ∧ length (Route.stack r') = S (length (Route.stack r))
                ∧ Route.Fn (Route.param_middleware ctx_params p fn) ∈ Route.stack r').
Proof.
  split_and!.
  - intros m Hi. simpl. by rewrite list_lookup_fmap, Hi.
  - intros r Hi Hout. simpl. rewrite list_lookup_fmap, Hi. simpl.
    unfold Route.param. rewrite RouteLaws.indexOf_absent by done.
    rewrite bool_decide_eq_false_2; [done|]. intros Hne. by apply Hne.
  - intros r Hi Hdecl Hhandler. exists (Route.param ctx_params r p fn). split_and!.
    + simpl. by rewrite list_lookup_fmap, Hi.
    + by apply RouteLaws.param_inserts.
    + by apply param_present.
Qed.

(** *** [redirect] *)

(** X17.  On a router built through its public methods, [redirect] from or to
    a route name always fails, with an error that names the source when the
    source is not a path and the destination otherwise; with two paths it
    registers what [all] registers for the source path with the one redirect
    handler, the status being 301 when none is given. *)
Theorem redirect_built rt (src dst : string) (status : option Z) :
  Router.built ctx_params rt →
  Router.redirect ctx_redirect ctx_set_status rt src dst status
  = if Router.starts_with_slash src then
      if Router.starts_with_slash dst then
        Router.all rt src
          [Route.Fn (Router.redirect_handler ctx_redirect ctx_set_status dst
                       (default 301 status))]
      else Throws (TypeError "Redirection destination does not exist.")
    else Throws (TypeError "Redirection source does not exist.").
Proof.
  intros Hbuilt. unfold Router.redirect.
  rewrite !(RouterFacts.built_url_null Context ctx_params rt _ _ _ Hbuilt).
  destruct (Router.starts_with_slash src) eqn:Hsrc,
           (Router.starts_with_slash dst) eqn:Hdst; simpl; try done.
  destruct src as [|a src]; [done|]. done.
Qed.

(** A router that [redirect] returns is again one of the built routers. *)
Lemma redirect_stays_built rt (src dst : string) (status : option Z) rt' :
  Router.built ctx_params rt →
  Router.redirect ctx_redirect ctx_set_status rt src dst status = Returns rt' →
  Router.built ctx_params rt'.
Proof.
  intros Hbuilt. unfold Router.redirect.
  rewrite !(RouterFacts.built_url_null Context ctx_params rt _ _ _ Hbuilt).
  destruct (Router.starts_with_slash src), (Router.starts_with_slash dst);
    simpl; try done.
  intros Hall. by eapply Router.built_addRoute.
Qed.

(** X18.  The redirect handler never passes control on: in a chain it is the
    last entry that runs.  The chain resolves with the context the two
    context calls leave, and is rejected with the exception of the first of
    them that throws. *)
Theorem redirect_handler_ends (c : Context) (dst : string) (status : Z)
    (rest : list (Chain.Middleware Context)) :
  Chain.chain c (Router.redirect_handler ctx_redirect ctx_set_status dst status :: rest)
  = match ctx_redirect dst c with
    | Throws e => (Rejected e, {| Chain.id := 0; Chain.ctx := c; Chain.calls := [0] |})
    | Returns c1 =>
        match ctx_set_status status c1 with
        | Throws e =>
            (Rejected e, {| Chain.id := 0; Chain.ctx := c1; Chain.calls := [0] |})
        | Returns c2 =>
            (Resolved, {| Chain.id := 0; Chain.ctx := c2; Chain.calls := [0] |})
        end
    end.
Proof.
  unfold Chain.chain. rewrite ChainFacts.dispatch_cons by (simpl; lia). simpl.
  destruct (ctx_redirect dst c) as [c1|e]; simpl; [|done].
  destruct (ctx_set_status status c1) as [c2|e]; done.
Qed.

(** *** The prefix *)

Lemma drop_last_slash (value : string) :
  Router.ends_with_slash value = true → drop_last value +:+ "/" = value.
Proof.
  induction value as [|a value IH]; [done|]. intros Hends.
  destruct value as [|b value].
  - simpl in Hends. apply bool_decide_eq_true_1 in Hends. by subst a.
  - change (String a (drop_last (String b value) +:+ "/") = String a (String b value)).
    f_equal. by apply IH.
Qed.

(** X19.  Setting the prefix removes one trailing slash and nothing else: the
    stored prefix followed by a slash is the given value when the value ends
    in a slash, and is the given value otherwise. *)
Theorem set_prefix_trims rt (value : string) :
  (Router.ends_with_slash value = true
   ∧ Router.prefix (Router.set_prefix rt value) +:+ "/" = value)
  ∨ (Router.ends_with_slash value = false
     ∧ Router.prefix (Router.set_prefix rt value) = value).
Proof.
  unfold Router.set_prefix. simpl.
  destruct (Router.ends_with_slash value) eqn:Hends; [left|right]; split; try done.
  by apply drop_last_slash.
Qed.

End laws.

(** A router with one route, built through [put]. *)
Lemma redirect_built_witness :
  ∃ rt : Router.Router Examples.Ctx,
    Router.put Samples.empty_router "/new" [Samples.h] = Returns rt
    ∧ Router.redirect Samples.redirect_to Samples.set_status rt "old" "/new" None
      = Throws (TypeError "Redirection source does not exist.")
    ∧ Router.redirect Samples.redirect_to Samples.set_status rt "/old" "new" None
      = Throws (TypeError "Redirection destination does not exist.").
Proof.
  eexists. split; [reflexivity|].
  split;
    (rewrite (redirect_built (H:=Segments.lib) Examples.Ctx Examples.ctx_params);
     [reflexivity|]);
    (apply (Router.built_addRoute Examples.Ctx Examples.ctx_params
              Samples.empty_router "/new" ["PUT"] [Samples.h]);
     [apply Router.built_new|reflexivity]).
Defined.

(** A prefix that ends in two slashes keeps one. *)
Example set_prefix_samples :
  Router.prefix (Router.set_prefix Samples.empty_router "/api/") = "/api"
  ∧ Router.prefix (Router.set_prefix Samples.empty_router "/api//") = "/api/"
  ∧ Router.prefix (Router.set_prefix Samples.empty_router "/") = ""
  ∧ Router.prefix (Router.new {| Router.opt_prefix := Some "/api/";
                                 Router.opt_methods := None |}
                     : Router.Router Examples.Ctx) = "/api/".
Proof. repeat split; reflexivity. Qed.

End RouterLaws.

(** ** Quoted strings *)

Module SharedLaws.

Lemma append_inj_tail (s1 s2 : string) (a : ascii) :
  s1 +:+ String a EmptyString = s2 +:+ String a EmptyString → s1 = s2.
Proof.
  revert s2. induction s1 as [|b1 s1 IH]; intros [|b2 s2] Heq; [done| | |].
  - inversion Heq as [[Hb Hs]]. destruct s2; discriminate.
  - inversion Heq as [[Hb Hs]]. destruct s1; discriminate.
  - inversion Heq as [[Hb Hs]]. f_equal. by apply IH.
Qed.

(** The escaped text determines the text. *)
Lemma escape_quotes_inj : ∀ value1 value2 : string,
  Shared.escape_quotes value1 = Shared.escape_quotes value2 → value1 = value2.
Proof.
  induction value1 as [|a1 value1 IH]; intros [|a2 value2] Heq; simpl in Heq.
  - done.
  - case_bool_decide; discriminate.
  - case_bool_decide; discriminate.
  - case_bool_decide as Ha1; case_bool_decide as Ha2; inversion Heq; subst.
    + f_equal. by apply IH.
    + destruct Ha2. by right.
    + destruct Ha1. by right.
    + f_equal. by apply IH.
Qed.

(** X20.  [quoteString] loses nothing: a quoted string starts with a double
    quote, and two different values never have the same quoted string,
    whatever quotes and backslashes they hold. *)
Theorem quoteString_distinct (value1 value2 : string) :
  value1 ≠ value2 →
  Shared.quoteString value1 ≠ Shared.quoteString value2
  ∧ ∃ body, Shared.quoteString value1 = String Shared.dquote body.
Proof.
  intros Hne. split; [|by eexists].
  unfold Shared.quoteString. intros Heq. apply Hne.
  inversion Heq as [Hbody].
  by apply escape_quotes_inj, (append_inj_tail _ _ Shared.dquote).
Qed.

(** A value that holds a quote and the value with the quote already escaped. *)
Lemma quoteString_distinct_witness :
  Shared.quoteString (String "a" (String Shared.dquote "b"))
  ≠ Shared.quoteString (String "a" (String Shared.backslash (String Shared.dquote "b"))).
Proof.
  apply (quoteString_distinct (String "a" (String Shared.dquote "b"))
           (String "a" (String Shared.backslash (String Shared.dquote "b")))).
  discriminate.
Defined.

End SharedLaws.
